(** * unity-guid-corrector: a shallow embedding of [UnityGUIDCorrector]

    The Python class of [src/unity-guid-corrector.py] is embedded as pure
    functions over an explicit world (file system, run log, record of the
    writes performed).  Console output ([print], [tqdm]) and [time.sleep] have
    no effect on the file system, the log or any returned value and are left
    out. *)

From Stdlib Require Import Ascii String NArith Bool Arith Lia List.
Import ListNotations.

Set Implicit Arguments.

(** ** Python strings

    A Python [str] is a sequence of Unicode code points. *)

Definition char := N.
Definition text := list char.

(** Literals: the code points of an ASCII/Latin-1 literal. *)
Definition str (s : string) : text := map N_of_ascii (list_ascii_of_string s).

Fixpoint text_eqb (a b : text) : bool :=
  match a, b with
  | [], [] => true
  | x :: a', y :: b' => N.eqb x y && text_eqb a' b'
  | _, _ => false
  end.

(** [s.startswith(p)] *)
Fixpoint starts_with (p s : text) : bool :=
  match p with
  | [] => true
  | x :: p' =>
      match s with
      | [] => false
      | y :: s' => N.eqb x y && starts_with p' s'
      end
  end.

(** [old in s] *)
Fixpoint contains (old s : text) : bool :=
  starts_with old s ||
  match s with
  | [] => false
  | _ :: s' => contains old s'
  end.

(** [s.replace(old, new)]: the occurrences of [old] are found from the left
    and do not overlap.  [skip] counts the characters of a replaced
    occurrence that are still to be passed over. *)
Fixpoint replace_from (old new : text) (skip : nat) (s : text) : text :=
  match s with
  | [] => []
  | c :: s' =>
      match skip with
      | S k => replace_from old new k s'
      | O =>
          if starts_with old s
          then new ++ replace_from old new (length old - 1) s'
          else c :: replace_from old new 0 s'
      end
  end.

Definition replace (old new s : text) : text :=
  match old with
  | [] => new ++ flat_map (fun c => c :: new) s
  | _ :: _ => replace_from old new 0 s
  end.

(** ** The regular expression [guid:\s*([a-fA-F0-9]{32})] *)

(** [\s] on a [str] pattern: the Unicode white space of [str.isspace]. *)
Definition is_space (c : char) : bool :=
  ((9 <=? c) && (c <=? 13) || (28 <=? c) && (c <=? 32) ||
   (c =? 133) || (c =? 160) || (c =? 5760) ||
   (8192 <=? c) && (c <=? 8202) || (c =? 8232) || (c =? 8233) ||
   (c =? 8239) || (c =? 8287) || (c =? 12288))%N.

(** [[a-fA-F0-9]] *)
Definition is_hex (c : char) : bool :=
  ((48 <=? c) && (c <=? 57) || (65 <=? c) && (c <=? 70) ||
   (97 <=? c) && (c <=? 102))%N.

(** [[a-f0-9]]: the characters of an extracted GUID. *)
Definition is_lhex (c : char) : bool :=
  ((48 <=? c) && (c <=? 57) || (97 <=? c) && (c <=? 102))%N.

(** [str.lower] on the ASCII letters; it is only ever applied to group 1 of
    the pattern, which consists of ASCII hexadecimal digits. *)
Definition lower_char (c : char) : char :=
  if ((65 <=? c) && (c <=? 90))%N then (c + 32)%N else c.

Definition lower (s : text) : text := map lower_char s.

(** [[a-fA-F0-9]{n}] at the head of [s]. *)
Fixpoint take_hex (n : nat) (s : text) : option text :=
  match n with
  | O => Some []
  | S n' =>
      match s with
      | c :: s' =>
          if is_hex c
          then match take_hex n' s' with
               | Some g => Some (c :: g)
               | None => None
               end
          else None
      | [] => None
      end
  end.

(** [\s*([a-fA-F0-9]{32})] at the head of [s]: the star is greedy and gives
    characters back when the rest of the pattern fails. *)
Fixpoint ws_then_hex (s : text) : option text :=
  match s with
  | c :: s' =>
      if is_space c
      then match ws_then_hex s' with
           | Some g => Some g
           | None => take_hex 32 s
           end
      else take_hex 32 s
  | [] => take_hex 32 s
  end.

Fixpoint strip_prefix (p s : text) : option text :=
  match p with
  | [] => Some s
  | x :: p' =>
      match s with
      | y :: s' => if N.eqb x y then strip_prefix p' s' else None
      | [] => None
      end
  end.

(** The pattern anchored at the head of [s]; the result is group 1. *)
Definition match_at (s : text) : option text :=
  match strip_prefix (str "guid:") s with
  | Some rest => ws_then_hex rest
  | None => None
  end.

(** [re.search]: the leftmost position at which the pattern matches. *)
Fixpoint re_search (s : text) : option text :=
  match match_at s with
  | Some g => Some g
  | None =>
      match s with
      | [] => None
      | _ :: s' => re_search s'
      end
  end.

(** ** The file system

    A path is the list of its components; the file system lists its entries
    in the order in which a traversal meets them.  The content of a file is
    the text that [read_text] returns for it, [None] when reading it raises;
    a file that is not writable makes [write_text] raise. *)

Definition path := list text.

Inductive node :=
| File (content : option text) (writable : bool)
| Dir.

Definition FS := list (path * node).

Fixpoint path_eqb (a b : path) : bool :=
  match a, b with
  | [], [] => true
  | x :: a', y :: b' => text_eqb x y && path_eqb a' b'
  | _, _ => false
  end.

Fixpoint is_prefix (a b : path) : bool :=
  match a with
  | [] => true
  | x :: a' =>
      match b with
      | [] => false
      | y :: b' => text_eqb x y && is_prefix a' b'
      end
  end.

(** [b] lies strictly below the directory [a]. *)
Definition under (a b : path) : bool := is_prefix a b && negb (path_eqb a b).

Fixpoint lookup (fs : FS) (p : path) : option node :=
  match fs with
  | [] => None
  | (q, n) :: fs' => if path_eqb q p then Some n else lookup fs' p
  end.

(** [Path.exists] *)
Definition exists_ (fs : FS) (p : path) : bool :=
  match p with
  | [] => true
  | _ :: _ => existsb (fun e => is_prefix p (fst e)) fs
  end.

(** [Path.read_text]: [None] stands for a raised exception (no such file, a
    directory, no permission, bytes that do not decode). *)
Definition read_text (fs : FS) (p : path) : option text :=
  match lookup fs p with
  | Some (File (Some c) _) => Some c
  | _ => None
  end.

Definition set_content (p : path) (s : text) (e : path * node) : path * node :=
  match e with
  | (q, File c w) => if path_eqb q p then (q, File (Some s) w) else e
  | (q, Dir) => e
  end.

(** [Path.write_text]: [None] stands for a raised exception, which leaves
    the file as it was. *)
Definition write_text (fs : FS) (p : path) (s : text) : option FS :=
  match lookup fs p with
  | Some (File _ true) => Some (map (set_content p s) fs)
  | Some (File _ false) => None
  | Some Dir => None
  | None =>
      if exists_ fs p then None
      else
        match p with
        | [] => None
        | _ :: _ =>
            if exists_ fs (removelast p)
            then match lookup fs (removelast p) with
                 | Some (File _ _) => None
                 | _ => Some (fs ++ [(p, File (Some s) true)])
                 end
            else None
        end
  end.

(** [fnmatch] of one path component, with [*] and [?]; bracket expressions
    are not modelled (a [[] stands for itself). *)
Fixpoint fnmatch (pat name : text) : bool :=
  match pat with
  | [] => match name with [] => true | _ :: _ => false end
  | c :: pat' =>
      if (c =? 42)%N
      then (fix star (n : text) : bool :=
              fnmatch pat' n ||
              match n with
              | [] => false
              | _ :: n' => star n'
              end) name
      else match name with
           | [] => false
           | d :: name' => ((c =? 63)%N || (c =? d)%N) && fnmatch pat' name'
           end
  end.

(** [Path.name] *)
Definition name (p : path) : text := last p [].

(** [Path.rglob(pat)], for a one-component pattern that pathlib accepts:
    the entries strictly below [root] whose name matches. *)
Definition rglob (fs : FS) (root : path) (pat : text) : list path :=
  map fst (filter (fun e => under root (fst e) && fnmatch pat (name (fst e))) fs).

(** pathlib (CPython up to 3.12) rejects a component that contains [**]
    without being [**]: [ValueError], raised when the iteration starts,
    inside the [try] of [build_guid_mappings]. *)
Definition glob_valid (pat : text) : bool := negb (contains (str "**") pat).

(** [Path.stem]: the name without its last suffix. *)
Fixpoint rindex (c : char) (s : text) : option nat :=
  match s with
  | [] => None
  | x :: s' =>
      match rindex c s' with
      | Some i => Some (S i)
      | None => if N.eqb x c then Some 0 else None
      end
  end.

Definition stem (p : path) : text :=
  let nm := name p in
  match rindex 46%N nm with
  | Some i => if (0 <? i) && (i <? length nm - 1) then firstn i nm else nm
  | None => nm
  end.

(** ** The world of a run *)

Inductive level := INFO | ERROR.

(** The messages of the logger calls, one constructor per call site. *)
Inductive message :=
| PathMissing (description : text) (p : path)
| NoMetaFiles (description : text) (p : path)
| ReadMetaError (meta_path : path)
| Mapped (filename decompiled_guid actual_guid : text)
| ProcessError (decompiled_meta : path)
| Updated (file_path : path)
| UpdateError (file_path : path)
| NoMappings.

Record World := mkWorld {
  w_fs : FS;
  w_log : list (level * message);
  w_writes : list path
}.

Definition logger (l : level) (m : message) (w : World) : World :=
  mkWorld (w_fs w) (w_log w ++ [(l, m)]) (w_writes w).

Definition errors (w : World) : list message :=
  map snd (filter (fun e => match fst e with ERROR => true | INFO => false end) (w_log w)).

(** ** The mapping table

    [guid_mappings] is a [dict]: keys are unique, iteration follows the order
    of first insertion, assigning to a present key keeps its place. *)

Definition table := list (text * text).

Fixpoint dict_set (k v : text) (d : table) : table :=
  match d with
  | [] => [(k, v)]
  | (k', v') :: d' =>
      if text_eqb k' k then (k', v) :: d' else (k', v') :: dict_set k v d'
  end.

Fixpoint dict_get (d : table) (k : text) : option text :=
  match d with
  | [] => None
  | (k', v') :: d' => if text_eqb k' k then Some v' else dict_get d' k
  end.

Definition keys (d : table) : list text := map fst d.
Definition values (d : table) : list text := map snd d.

(** ** [UnityGUIDCorrector] *)

Record Corrector := mkCorrector {
  decompiled_path : path;
  actual_path : path;
  project_path : path;
  guid_mappings : table
}.

(** [__init__] *)
Definition init (decompiled actual project : path) : Corrector :=
  mkCorrector decompiled actual project [].

Definition set_mappings (self : Corrector) (d : table) : Corrector :=
  mkCorrector (decompiled_path self) (actual_path self) (project_path self) d.

(** [count_files] *)
Definition count_files (self : Corrector) (p : path) (pattern : text) (w : World)
  : nat :=
  length (rglob (w_fs w) p pattern).

Definition meta_glob : text := str "*.meta".

(** The body of the loop of [validate_paths]. *)
Definition check_path (pd : path * text) (w : World) : bool * World :=
  let (p, description) := pd in
  if negb (exists_ (w_fs w) p)
  then (false, logger ERROR (PathMissing description p) w)
  else
    match rglob (w_fs w) p meta_glob with
    | [] => (false, logger ERROR (NoMetaFiles description p) w)
    | _ :: _ => (true, w)
    end.

Fixpoint validate_loop (paths : list (path * text)) (w : World) : bool * World :=
  match paths with
  | [] => (true, w)
  | pd :: rest =>
      match check_path pd w with
      | (true, w') => validate_loop rest w'
      | (false, w') => (false, w')
      end
  end.

Definition validate_paths (self : Corrector) (w : World) : bool * World :=
  validate_loop
    [(decompiled_path self, str "Decompiled package path");
     (actual_path self, str "Actual package path");
     (project_path self, str "Unity project path")] w.

Definition extract_guid_from_meta (meta_path : path) (w : World)
  : option text * World :=
  match read_text (w_fs w) meta_path with
  | Some content =>
      match re_search content with
      | Some g => (Some (lower g), w)
      | None => (None, w)
      end
  | None => (None, logger ERROR (ReadMetaError meta_path) w)
  end.

(** Truth value of an [Optional[str]]. *)
Definition truthy (g : option text) : bool :=
  match g with
  | Some (_ :: _) => true
  | _ => false
  end.

(** The first result of the inner [rglob] that exists. *)
Definition find_actual (self : Corrector) (filename : text) (w : World) : option path :=
  find (exists_ (w_fs w)) (rglob (w_fs w) (actual_path self) (filename ++ str ".meta")).

(** The body of the loop of [build_guid_mappings] for one descriptor of the
    decompiled tree. *)
Definition build_step (self : Corrector) (st : table * World) (decompiled_meta : path)
  : table * World :=
  let (d, w) := st in
  let filename := stem decompiled_meta in
  if negb (glob_valid (filename ++ str ".meta"))
  then (d, logger ERROR (ProcessError decompiled_meta) w)
  else
    match find_actual self filename w with
    | None => (d, w)
    | Some actual_meta =>
        let (decompiled_guid, w1) := extract_guid_from_meta decompiled_meta w in
        let (actual_guid, w2) := extract_guid_from_meta actual_meta w1 in
        if truthy decompiled_guid && truthy actual_guid
        then
          match decompiled_guid, actual_guid with
          | Some o, Some n => (dict_set o n d, logger INFO (Mapped filename o n) w2)
          | _, _ => (d, w2)
          end
        else (d, w2)
    end.

Definition build_guid_mappings (self : Corrector) (w : World) : Corrector * World :=
  let decompiled_meta_files := rglob (w_fs w) (decompiled_path self) meta_glob in
  let (d, w') := fold_left (build_step self) decompiled_meta_files (guid_mappings self, w) in
  (set_mappings self d, w').

(** The loop over [guid_mappings.items()]. *)
Definition replace_all (d : table) (content : text) : text :=
  fold_left (fun c on => replace (fst on) (snd on) c) d content.

Definition replace_guids_in_file (self : Corrector) (file_path : path) (w : World)
  : bool * World :=
  match read_text (w_fs w) file_path with
  | None => (false, logger ERROR (UpdateError file_path) w)
  | Some original_content =>
      let content := replace_all (guid_mappings self) original_content in
      if negb (text_eqb content original_content)
      then
        match write_text (w_fs w) file_path content with
        | Some fs' =>
            (true, logger INFO (Updated file_path)
                     (mkWorld fs' (w_log w) (w_writes w ++ [file_path])))
        | None => (false, logger ERROR (UpdateError file_path) w)
        end
      else (false, w)
  end.

Definition extensions : list text :=
  [str ".meta"; str ".unity"; str ".asset"; str ".prefab"; str ".mat"].

Definition collect_target_files (self : Corrector) (w : World) : list path :=
  flat_map (fun ext => rglob (w_fs w) (project_path self) (str "*" ++ ext)) extensions.

(** The loop of [correct_guids] over the target files, from the counters
    [(files_processed, files_modified)]. *)
Fixpoint substitute (self : Corrector) (target_files : list path)
  (counts : nat * nat) (w : World) : (nat * nat) * World :=
  match target_files with
  | [] => (counts, w)
  | file_path :: rest =>
      let files_processed := fst counts + 1 in
      match replace_guids_in_file self file_path w with
      | (true, w') => substitute self rest (files_processed, snd counts + 1) w'
      | (false, w') => substitute self rest (files_processed, snd counts) w'
      end
  end.

Definition correct_guids (self : Corrector) (w : World)
  : (nat * nat) * Corrector * World :=
  match validate_paths self w with
  | (false, w1) => ((0, 0), self, w1)
  | (true, w1) =>
      let (self', w2) := build_guid_mappings self w1 in
      match guid_mappings self' with
      | [] => ((0, 0), self', logger ERROR NoMappings w2)
      | _ :: _ =>
          let target_files := collect_target_files self' w2 in
          let (counts, w3) := substitute self' target_files (0, 0) w2 in
          (counts, self', w3)
      end
  end.

(** * Specification vocabulary *)

(** [old] occurs in [s] as a substring. *)
Definition occurs (old s : text) : Prop := exists p q, s = p ++ old ++ q.

Definition all_space (s : text) : Prop := Forall (fun c => is_space c = true) s.
Definition all_hex (s : text) : Prop := Forall (fun c => is_hex c = true) s.
Definition all_lhex (s : text) : Prop := Forall (fun c => is_lhex c = true) s.

(** A GUID as [extract_guid_from_meta] returns it: 32 lowercase hexadecimal
    digits. *)
Definition is_guid (g : text) : Prop := length g = 32 /\ all_lhex g.

(** The pattern [guid:\s*([a-fA-F0-9]{32})] matches [s] at offset [i] with
    group 1 equal to [g]. *)
Definition pattern_match_at (s : text) (i : nat) (g : text) : Prop :=
  exists pre ws post,
    s = pre ++ str "guid:" ++ ws ++ g ++ post /\
    length pre = i /\ all_space ws /\ length g = 32 /\ all_hex g.

(** The first match of the pattern in [s]. *)
Definition first_match (s : text) (i : nat) (g : text) : Prop :=
  pattern_match_at s i g /\
  forall j g', j < i -> ~ pattern_match_at s j g'.

(** What [extract_guid_from_meta] returns depends on the file system only. *)
Definition guid_of (fs : FS) (meta_path : path) : option text :=
  match read_text fs meta_path with
  | Some content => option_map lower (re_search content)
  | None => None
  end.


(** ** Runs of hexadecimal digits

    A text is cut in its maximal runs of lowercase hexadecimal digits; two
    consecutive runs are separated by one character that is not such a
    digit.  [split_runs] returns the runs with their separators and the
    last run. *)






(** The new GUID of [h] when [h] is an old GUID of the table, else [h]. *)
Definition subst (d : table) (h : text) : text :=
  match dict_get d h with
  | Some n => n
  | None => h
  end.

Definition guidb (g : text) : bool := (length g =? 32) && forallb is_lhex g.

(** Keys and values of the table are GUIDs. *)
Definition guid_table (d : table) : bool :=
  forallb (fun on => guidb (fst on) && guidb (snd on)) d.













(** ** The claims as the specification words them *)





(** ** The build phase *)

(** The log entry of a failed [read_text] in [extract_guid_from_meta]. *)
Definition read_error (fs : FS) (meta_path : path) : list (level * message) :=
  match read_text fs meta_path with
  | Some _ => []
  | None => [(ERROR, ReadMetaError meta_path)]
  end.

(** The pair that one round of the loop of [build_guid_mappings] records
    for the descriptor [decompiled_meta], if any. *)
Definition correlation (self : Corrector) (fs : FS) (decompiled_meta : path)
  : option (text * text) :=
  let filename := stem decompiled_meta in
  if glob_valid (filename ++ str ".meta")
  then
    match find (exists_ fs) (rglob fs (actual_path self) (filename ++ str ".meta")) with
    | Some actual_meta =>
        match guid_of fs decompiled_meta, guid_of fs actual_meta with
        | Some o, Some n => Some (o, n)
        | _, _ => None
        end
    | None => None
    end
  else None.

Definition record (self : Corrector) (fs : FS) (d : table) (decompiled_meta : path)
  : table :=
  match correlation self fs decompiled_meta with
  | Some (o, n) => dict_set o n d
  | None => d
  end.



(** ** Names and patterns *)

(** A pattern without the magic characters [*], [?] and [[]. *)
Definition plain (pat : text) : bool :=
  forallb (fun c => negb (c =? 42)%N && negb (c =? 63)%N && negb (c =? 91)%N) pat.

(** [name.endswith(ext)] *)
Definition ends_with (ext nm : text) : bool := starts_with (rev ext) (rev nm).

(** The three directories that [validate_paths] checks, in its order. *)
Definition checked_paths (self : Corrector) : list (path * text) :=
  [(decompiled_path self, str "Decompiled package path");
   (actual_path self, str "Actual package path");
   (project_path self, str "Unity project path")].

(** A directory passes the check of [validate_paths]. *)
Definition dir_ok (fs : FS) (p : path) : Prop :=
  exists_ fs p = true /\ rglob fs p meta_glob <> [].

(** The entry that [validate_paths] logs for a directory that fails. *)
Definition failure_entry (fs : FS) (pd : path * text) : level * message :=
  if exists_ fs (fst pd)
  then (ERROR, NoMetaFiles (snd pd) (fst pd))
  else (ERROR, PathMissing (snd pd) (fst pd)).

(** The entries that the build phase can add to the log. *)
Definition build_entry (e : level * message) : Prop :=
  match e with
  | (INFO, Mapped _ _ _) => True
  | (ERROR, ReadMetaError _) => True
  | (ERROR, ProcessError _) => True
  | _ => False
  end.

(** A node that the loop over the target files cannot change: a
    directory, a file that cannot be read, a file that cannot be written. *)
Definition frozen (n : node) : Prop :=
  match n with
  | Dir => True
  | File None _ => True
  | File (Some _) wr => wr = false
  end.

(** The value recorded last for the key [k] by the descriptors of [l],
    [acc] when none of them is correlated with [k] as old GUID. *)
Definition last_recorded (self : Corrector) (fs : FS) (k : text)
    (l : list path) (acc : option text) : option text :=
  fold_left
    (fun acc' m =>
       match correlation self fs m with
       | Some (o, n) => if text_eqb o k then Some n else acc'
       | None => acc'
       end) l acc.

(** * Sample worlds *)

Definition meta_sample : text :=
  str "fileFormatVersion: 2" ++ [10%N] ++
  str "guid:  0123456789ABCDEF0123456789abcDEF" ++ [10%N] ++
  str "guid: ffffffffffffffffffffffffffffffff".

Definition meta_world : World :=
  mkWorld [([str "pkg"; str "Foo.cs.meta"], File (Some meta_sample) true)] [] [].


Definition hex32 (c : string) : text := concat (repeat (str c) 32).

(** The scenario of the specification: a decompiled tree, an actual
    package tree and a project. *)
Definition demo_fs : FS :=
  [ ([str "dec"; str "Foo.meta"],
     File (Some (str "guid: " ++ hex32 "A")) true);
    ([str "act"; str "Foo.meta"],
     File (Some (str "guid: " ++ hex32 "b")) true);
    ([str "proj"; str "Scene.unity"],
     File (Some (str "m_Script: {fileID: 11500000, guid: " ++ hex32 "a" ++
                 str ", type: 3}")) true);
    ([str "proj"; str "Scene.unity.meta"],
     File (Some (str "guid: " ++ hex32 "c")) true);
    ([str "proj"; str "Upper.prefab"],
     File (Some (str "m_Script: {guid: " ++ hex32 "A" ++ str "}")) true);
    ([str "proj"; str "Locked.asset"],
     File (Some (str "guid: " ++ hex32 "a")) false);
    ([str "proj"; str "Broken.mat"], File None true) ].

Definition demo_world : World := mkWorld demo_fs [] [].

Definition demo : Corrector := init [str "dec"] [str "act"] [str "proj"].

Definition demo_built : Corrector := set_mappings demo [(hex32 "a", hex32 "b")].






(** Two descriptors of the actual tree share the stem of one descriptor of
    the decompiled tree. *)
Definition twin_fs : FS :=
  [ ([str "dec"; str "Foo.meta"], File (Some (str "guid: " ++ hex32 "a")) true);
    ([str "act"; str "x"], Dir);
    ([str "act"; str "x"; str "Foo.meta"],
     File (Some (str "guid: " ++ hex32 "b")) true);
    ([str "act"; str "y"], Dir);
    ([str "act"; str "y"; str "Foo.meta"],
     File (Some (str "guid: " ++ hex32 "c")) true);
    ([str "proj"; str "Scene.unity.meta"],
     File (Some (str "guid: " ++ hex32 "d")) true) ].

Definition twin_world : World := mkWorld twin_fs [] [].



(** Two descriptors of the decompiled tree with the same GUID. *)
Definition clash_fs : FS :=
  [ ([str "dec"; str "Foo.meta"], File (Some (str "guid: " ++ hex32 "a")) true);
    ([str "dec"; str "Bar.meta"], File (Some (str "guid: " ++ hex32 "A")) true);
    ([str "act"; str "Foo.meta"], File (Some (str "guid: " ++ hex32 "b")) true);
    ([str "act"; str "Bar.meta"], File (Some (str "guid: " ++ hex32 "c")) true);
    ([str "proj"; str "Scene.unity.meta"],
     File (Some (str "guid: " ++ hex32 "d")) true) ].

Definition clash_world : World := mkWorld clash_fs [] [].



(** * Properties *)

(** ** The model on small inputs *)

Example replace_leftmost :
  replace (str "aa") (str "b") (str "aaa") = str "ba".
Proof. reflexivity. Qed.

Example replace_empty_old :
  replace [] (str "-") (str "ab") = str "-a-b-".
Proof. reflexivity. Qed.

Example stem_last_suffix :
  stem [str "dec"; str "Foo.cs.meta"] = str "Foo.cs" /\
  stem [str "dec"; str ".meta"] = str ".meta".
Proof. split; reflexivity. Qed.

Example rglob_descriptors :
  rglob twin_fs [str "act"] (str "Foo.meta") =
    [[str "act"; str "x"; str "Foo.meta"]; [str "act"; str "y"; str "Foo.meta"]].
Proof. reflexivity. Qed.

Example re_search_skips_short_run :
  re_search (str "guid: 0123" ++ [10%N] ++ str "guid:" ++ [9%N] ++ hex32 "F") =
    Some (hex32 "F").
Proof. vm_compute; reflexivity. Qed.

(** The scenario of the specification: one mapping, five target files, one
    of them modified. *)
Example scenario_counts :
  guid_mappings (snd (fst (correct_guids demo demo_world))) =
    [(hex32 "a", hex32 "b")] /\
  fst (fst (correct_guids demo demo_world)) = (5, 1) /\
  w_writes (snd (correct_guids demo demo_world)) = [[str "proj"; str "Scene.unity"]].
Proof. vm_compute; repeat split; reflexivity. Qed.

(** ** Equality tests and occurrences *)

Lemma text_eqb_eq (a b : text) : text_eqb a b = true <-> a = b.
Proof.
  revert b; induction a as [|x a IH]; intros [|y b]; simpl; split;
    try congruence; auto.
  - intros H; apply andb_true_iff in H as [H1 H2].
    apply N.eqb_eq in H1; apply IH in H2; congruence.
  - intros H; injection H as -> ->.
    rewrite N.eqb_refl; simpl; apply IH; reflexivity.
Qed.

Lemma text_eqb_refl (a : text) : text_eqb a a = true.
Proof. apply text_eqb_eq; reflexivity. Qed.

Lemma text_eqb_neq (a b : text) : text_eqb a b = false <-> a <> b.
Proof.
  split.
  - intros H E; apply text_eqb_eq in E; congruence.
  - intros H; destruct (text_eqb a b) eqn:E; auto.
    apply text_eqb_eq in E; contradiction.
Qed.

Lemma path_eqb_eq (a b : path) : path_eqb a b = true <-> a = b.
Proof.
  revert b; induction a as [|x a IH]; intros [|y b]; simpl; split;
    try congruence; auto.
  - intros H; apply andb_true_iff in H as [H1 H2].
    apply text_eqb_eq in H1; apply IH in H2; congruence.
  - intros H; injection H as -> ->.
    rewrite text_eqb_refl; simpl; apply IH; reflexivity.
Qed.

Lemma path_eqb_refl (a : path) : path_eqb a a = true.
Proof. apply path_eqb_eq; reflexivity. Qed.

Lemma path_eqb_neq (a b : path) : path_eqb a b = false <-> a <> b.
Proof.
  split.
  - intros H E; apply path_eqb_eq in E; congruence.
  - intros H; destruct (path_eqb a b) eqn:E; auto.
    apply path_eqb_eq in E; contradiction.
Qed.

Lemma starts_with_spec (p s : text) :
  starts_with p s = true <-> exists q, s = p ++ q.
Proof.
  revert s; induction p as [|x p IH]; intros s; simpl.
  - split; eauto.
  - destruct s as [|y s].
    + split; [discriminate | intros [q H]; discriminate].
    + rewrite andb_true_iff, N.eqb_eq, IH; split.
      * intros [-> [q ->]]; eauto.
      * intros [q H]; injection H as -> ->; eauto.
Qed.

Lemma contains_spec (old s : text) : contains old s = true <-> occurs old s.
Proof.
  induction s as [|c s IH].
  - simpl; rewrite orb_false_r, starts_with_spec; split.
    + intros [q H]; exists [], q; exact H.
    + intros [p [q H]]; destruct p; simpl in H.
      * eauto.
      * discriminate.
  - cbn [contains]; rewrite orb_true_iff, starts_with_spec, IH; split.
    + intros [[q H] | [p [q H]]].
      * exists [], q; exact H.
      * exists (c :: p), q; simpl; congruence.
    + intros [p [q H]]; destruct p as [|d p]; simpl in H.
      * left; eauto.
      * right; injection H as _ ->; exists p, q; reflexivity.
Qed.

Lemma contains_false (old s : text) : contains old s = false <-> ~ occurs old s.
Proof.
  rewrite <- contains_spec; destruct (contains old s); split; intros;
    congruence.
Qed.

(** ** The regular expression *)

Lemma is_hex_range (c : char) : is_hex c = true -> (48 <= c <= 102)%N.
Proof.
  unfold is_hex; intros H.
  destruct (N.leb_spec 48 c), (N.leb_spec c 102); try lia;
    repeat match type of H with
    | context [N.leb ?a ?b] => destruct (N.leb_spec a b); try lia
    end; simpl in H; discriminate.
Qed.

Lemma is_space_range (c : char) : is_space c = true -> (c <= 32 \/ 133 <= c)%N.
Proof.
  unfold is_space; intros H.
  destruct (N.leb_spec c 32); [left; assumption|].
  destruct (N.leb_spec 133 c); [right; assumption|].
  exfalso.
  repeat match type of H with
  | context [N.leb ?a ?b] => destruct (N.leb_spec a b); try lia
  | context [N.eqb ?a ?b] => destruct (N.eqb_spec a b); try lia
  end; simpl in H; discriminate.
Qed.

Lemma space_not_hex (c : char) : is_space c = true -> is_hex c = false.
Proof.
  intros Hs; destruct (is_hex c) eqn:Hh; [|reflexivity].
  apply is_hex_range in Hh; apply is_space_range in Hs; lia.
Qed.

Lemma take_hex_sound (n : nat) (s g : text) :
  take_hex n s = Some g ->
  length g = n /\ all_hex g /\ exists post, s = g ++ post.
Proof.
  revert s g; induction n as [|n IH]; intros s g; simpl.
  - intros H; injection H as <-.
    split; [reflexivity|]; split; [constructor|]; exists s; reflexivity.
  - destruct s as [|c s]; [discriminate|].
    destruct (is_hex c) eqn:Hc; [|discriminate].
    destruct (take_hex n s) as [g'|] eqn:Ht; [|discriminate].
    intros H; injection H as <-.
    apply IH in Ht as [Hl [Hh [post ->]]].
    split; [simpl; congruence|]; split; [constructor; assumption|].
    exists post; reflexivity.
Qed.

Lemma take_hex_complete (g post : text) :
  all_hex g -> take_hex (length g) (g ++ post) = Some g.
Proof.
  induction 1 as [|c g Hc Hg IH]; simpl; [reflexivity|].
  rewrite Hc, IH; reflexivity.
Qed.

Lemma ws_then_hex_sound (s g : text) :
  ws_then_hex s = Some g ->
  exists ws post,
    s = ws ++ g ++ post /\ all_space ws /\ length g = 32 /\ all_hex g.
Proof.
  assert (base : forall t, take_hex 32 t = Some g ->
            exists ws post,
              t = ws ++ g ++ post /\ all_space ws /\ length g = 32 /\ all_hex g).
  { intros t H; apply take_hex_sound in H as [Hl [Hh [post ->]]].
    exists [], post; repeat split; auto; constructor. }
  induction s as [|c s IH]; cbn [ws_then_hex].
  - apply base.
  - destruct (is_space c) eqn:Hc; [|apply base].
    destruct (ws_then_hex s) as [g'|] eqn:Hw; [|apply base].
    intros H; injection H as ->.
    destruct (IH eq_refl) as [ws [post [-> [Hs [Hl Hh]]]]].
    exists (c :: ws), post; repeat split; auto; constructor; auto.
Qed.

Lemma ws_then_hex_complete (ws g post : text) :
  all_space ws -> length g = 32 -> all_hex g ->
  ws_then_hex (ws ++ g ++ post) = Some g.
Proof.
  intros Hs Hl Hh.
  assert (base : take_hex 32 (g ++ post) = Some g).
  { rewrite <- Hl; apply take_hex_complete; assumption. }
  induction Hs as [|c ws Hc Hs IH].
  - simpl app. destruct g as [|d g]; [discriminate|].
    cbn [ws_then_hex app].
    inversion Hh as [|? ? Hd Hg]; subst.
    destruct (is_space d) eqn:Hsd.
    + apply space_not_hex in Hsd; congruence.
    + exact base.
  - cbn [ws_then_hex app]; rewrite Hc, IH; reflexivity.
Qed.

Lemma strip_prefix_spec (p s r : text) :
  strip_prefix p s = Some r <-> s = p ++ r.
Proof.
  revert s; induction p as [|x p IH]; intros s; simpl.
  - split; congruence.
  - destruct s as [|y s]; [split; discriminate|].
    destruct (N.eqb_spec x y) as [->|Hne].
    + rewrite IH; split; congruence.
    + split; [discriminate | congruence].
Qed.

Lemma match_at_spec (s g : text) :
  match_at s = Some g <-> pattern_match_at s 0 g.
Proof.
  unfold match_at, pattern_match_at; split.
  - destruct (strip_prefix (str "guid:") s) as [rest|] eqn:Hp; [|discriminate].
    apply strip_prefix_spec in Hp; intros Hw.
    apply ws_then_hex_sound in Hw as [ws [post [-> [Hs [Hl Hh]]]]].
    exists [], ws, post; repeat split; auto.
  - intros [pre [ws [post [E [Hpre [Hs [Hl Hh]]]]]]].
    destruct pre; [|discriminate]; simpl in E.
    assert (Hp : strip_prefix (str "guid:") s = Some (ws ++ g ++ post))
      by (apply strip_prefix_spec; exact E).
    rewrite Hp; apply ws_then_hex_complete; assumption.
Qed.

Lemma pattern_match_at_cons (c : char) (s : text) (i : nat) (g : text) :
  pattern_match_at (c :: s) (S i) g <-> pattern_match_at s i g.
Proof.
  unfold pattern_match_at; split.
  - intros [pre [ws [post [E [Hpre H]]]]].
    destruct pre as [|d pre]; [discriminate|].
    simpl in E; injection E as _ ->; simpl in Hpre.
    exists pre, ws, post; repeat split; try tauto; lia.
  - intros [pre [ws [post [-> [Hpre H]]]]].
    exists (c :: pre), ws, post; repeat split; try tauto; simpl; lia.
Qed.

Lemma pattern_match_at_unique (s : text) (i : nat) (g g' : text) :
  pattern_match_at s i g -> pattern_match_at s i g' -> g = g'.
Proof.
  revert i; induction s as [|c s IH]; intros [|i] H H'.
  - apply match_at_spec in H, H'; congruence.
  - destruct H as [pre [ws [post [E [Hpre _]]]]]; destruct pre; discriminate.
  - apply match_at_spec in H, H'; congruence.
  - apply pattern_match_at_cons in H, H'; eauto.
Qed.

Lemma re_search_first (s : text) (i : nat) (g : text) :
  first_match s i g -> re_search s = Some g.
Proof.
  revert i; induction s as [|c s IH]; intros i [Hm Hmin].
  - destruct i as [|i].
    + apply match_at_spec in Hm; vm_compute in Hm; discriminate.
    + destruct Hm as [pre [ws [post [E [Hpre _]]]]]; destruct pre; discriminate.
  - cbn [re_search].
    destruct (match_at (c :: s)) as [g'|] eqn:H0.
    + apply match_at_spec in H0.
      destruct i as [|i].
      * f_equal; eapply pattern_match_at_unique; eauto.
      * exfalso; apply (Hmin 0 g'); [lia | assumption].
    + destruct i as [|i].
      * apply match_at_spec in Hm; congruence.
      * apply (IH i); split.
        -- apply pattern_match_at_cons in Hm; exact Hm.
        -- intros j g' Hj Hp; apply (Hmin (S j) g'); [lia|].
           apply pattern_match_at_cons; exact Hp.
Qed.

Lemma re_search_none (s : text) :
  (forall i g, ~ pattern_match_at s i g) -> re_search s = None.
Proof.
  induction s as [|c s IH]; intros Hno.
  - reflexivity.
  - cbn [re_search].
    destruct (match_at (c :: s)) as [g|] eqn:H0.
    + apply match_at_spec in H0; exfalso; eapply Hno; eauto.
    + apply IH; intros i g Hp; apply (Hno (S i) g).
      apply pattern_match_at_cons; exact Hp.
Qed.

Lemma re_search_sound (s g : text) :
  re_search s = Some g -> exists i, first_match s i g.
Proof.
  induction s as [|c s IH]; cbn [re_search].
  - intros H; vm_compute in H; discriminate.
  - destruct (match_at (c :: s)) as [g'|] eqn:H0.
    + intros H; injection H as ->; apply match_at_spec in H0.
      exists 0; split; [assumption | intros; lia].
    + intros H; destruct (IH H) as [i [Hm Hmin]].
      exists (S i); split.
      * apply pattern_match_at_cons; exact Hm.
      * intros [|j] g' Hj Hp.
        -- apply match_at_spec in Hp; congruence.
        -- apply pattern_match_at_cons in Hp; apply (Hmin j g'); [lia | assumption].
Qed.

Lemma is_hex_cases (c : char) :
  is_hex c = true ->
  ((48 <= c <= 57) \/ (65 <= c <= 70) \/ (97 <= c <= 102))%N.
Proof.
  unfold is_hex; rewrite !orb_true_iff, !andb_true_iff, !N.leb_le; tauto.
Qed.

Lemma is_lhex_cases (c : char) :
  is_lhex c = true <-> ((48 <= c <= 57) \/ (97 <= c <= 102))%N.
Proof.
  unfold is_lhex; rewrite !orb_true_iff, !andb_true_iff, !N.leb_le; tauto.
Qed.

Lemma lower_char_hex (c : char) :
  is_hex c = true -> is_lhex (lower_char c) = true.
Proof.
  intros H; apply is_hex_cases in H; apply is_lhex_cases; unfold lower_char.
  destruct (N.leb_spec 65 c), (N.leb_spec c 90); simpl; lia.
Qed.

Lemma lower_char_lhex (c : char) : is_lhex c = true -> lower_char c = c.
Proof.
  intros H; apply is_lhex_cases in H; unfold lower_char.
  destruct (N.leb_spec 65 c), (N.leb_spec c 90); simpl; lia.
Qed.

Lemma lower_guid (g : text) :
  length g = 32 -> all_hex g -> is_guid (lower g).
Proof.
  intros Hl Hh; split.
  - unfold lower; rewrite length_map; exact Hl.
  - unfold all_lhex, lower; apply Forall_map.
    eapply Forall_impl; [|exact Hh]; apply lower_char_hex.
Qed.

Lemma lower_lhex (g : text) : all_lhex g -> lower g = g.
Proof.
  induction 1 as [|c g Hc Hg IH]; simpl; [reflexivity|].
  rewrite lower_char_lhex, IH; auto.
Qed.

Lemma extract_guid_of (p : path) (w : World) :
  fst (extract_guid_from_meta p w) = guid_of (w_fs w) p.
Proof.
  unfold extract_guid_from_meta, guid_of.
  destruct (read_text (w_fs w) p); [|reflexivity].
  destruct (re_search t); reflexivity.
Qed.

Lemma guid_of_is_guid (fs : FS) (p : path) (g : text) :
  guid_of fs p = Some g -> is_guid g.
Proof.
  unfold guid_of; destruct (read_text fs p) as [c|]; [|discriminate].
  destruct (re_search c) as [g'|] eqn:Hs; [|discriminate].
  intros H; injection H as <-.
  apply re_search_sound in Hs as [i [[pre [ws [post [_ [_ [_ [Hl Hh]]]]]]] _]].
  apply lower_guid; assumption.
Qed.

(** C4. When the text of a descriptor file has a match of
    [guid:\s*([a-fA-F0-9]{32})], [extract_guid_from_meta] returns group 1 of
    the first (leftmost) match, lowercased: 32 lowercase hexadecimal digits
    whatever the case of the input; later matches play no part.  When the
    text has no match it returns [None].  In both cases the world is left as
    it was. *)
Theorem extract_guid_first_match (meta_path : path) (w : World) (content : text) :
  read_text (w_fs w) meta_path = Some content ->
  (forall i g, first_match content i g ->
     extract_guid_from_meta meta_path w = (Some (lower g), w) /\
     is_guid (lower g)) /\
  ((forall i g, ~ pattern_match_at content i g) ->
     extract_guid_from_meta meta_path w = (None, w)).
Proof.
  intros Hr; unfold extract_guid_from_meta; rewrite Hr; split.
  - intros i g Hf.
    rewrite (re_search_first Hf); split; [reflexivity|].
    destruct Hf as [[pre [ws [post [_ [_ [_ [Hl Hh]]]]]]] _].
    apply lower_guid; assumption.
  - intros Hno; rewrite (re_search_none Hno); reflexivity.
Qed.

Lemma pattern_match_at_skipn (s : text) (i : nat) (g : text) :
  pattern_match_at s i g <-> i <= length s /\ match_at (skipn i s) = Some g.
Proof.
  revert s; induction i as [|i IH]; intros s.
  - rewrite match_at_spec; simpl; split; [intros H; split; [lia | exact H] | tauto].
  - destruct s as [|c s].
    + split.
      * intros [pre [ws [post [E [Hpre _]]]]]; destruct pre; discriminate.
      * simpl; intros [H _]; lia.
    + rewrite pattern_match_at_cons, IH; simpl; split; intros [H1 H2]; split;
        auto; lia.
Qed.

Lemma extract_guid_first_match_witness :
  read_text (w_fs meta_world) [str "pkg"; str "Foo.cs.meta"] = Some meta_sample /\
  first_match meta_sample 21 (str "0123456789ABCDEF0123456789abcDEF") /\
  extract_guid_from_meta [str "pkg"; str "Foo.cs.meta"] meta_world =
    (Some (str "0123456789abcdef0123456789abcdef"), meta_world).
Proof.
  assert (Hf : first_match meta_sample 21 (str "0123456789ABCDEF0123456789abcDEF")).
  { split.
    - apply pattern_match_at_skipn; split; [vm_compute; lia | vm_compute; reflexivity].
    - intros j g' Hj Hp; apply pattern_match_at_skipn in Hp as [_ Hp].
      do 21 (destruct j as [|j]; [vm_compute in Hp; discriminate|]); lia. }
  split; [reflexivity|]; split; [exact Hf|].
  exact (proj1 (proj1 (extract_guid_first_match [str "pkg"; str "Foo.cs.meta"]
                         meta_world (content := meta_sample) eq_refl) _ _ Hf)).
Defined.
(** ** [str.replace] *)

Lemma replace_from_skip (old new : text) (k : nat) (s : text) :
  replace_from old new k s = replace_from old new 0 (skipn k s).
Proof.
  revert k; induction s as [|c s IH]; intros [|k]; try reflexivity.
  simpl; apply IH.
Qed.

Lemma replace_nonempty (old new s : text) :
  old <> [] -> replace old new s = replace_from old new 0 s.
Proof. destruct old; [congruence | reflexivity]. Qed.

Lemma starts_with_app (old q : text) : starts_with old (old ++ q) = true.
Proof. apply starts_with_spec; eauto. Qed.

Lemma replace_match (old new q : text) :
  old <> [] -> replace old new (old ++ q) = new ++ replace old new q.
Proof.
  intros Hne; rewrite !replace_nonempty by assumption.
  destruct old as [|a o]; [congruence|].
  change ((a :: o) ++ q) with (a :: (o ++ q)).
  cbn [replace_from].
  change (a :: (o ++ q)) with ((a :: o) ++ q).
  rewrite starts_with_app, replace_from_skip.
  replace (length (a :: o) - 1) with (length o) by (simpl; lia).
  rewrite skipn_app, skipn_all, Nat.sub_diag; reflexivity.
Qed.

Lemma replace_step (old new : text) (c : char) (s : text) :
  old <> [] -> starts_with old (c :: s) = false ->
  replace old new (c :: s) = c :: replace old new s.
Proof.
  intros Hne H; rewrite !replace_nonempty by assumption.
  cbn [replace_from]; rewrite H; reflexivity.
Qed.

Lemma replace_nil (old new : text) : old <> [] -> replace old new [] = [].
Proof. intros Hne; rewrite replace_nonempty by assumption; reflexivity. Qed.

Lemma occurs_nil (s : text) : occurs [] s.
Proof. exists [], s; reflexivity. Qed.

Lemma replace_absent (old new s : text) :
  ~ occurs old s -> replace old new s = s.
Proof.
  intros Hno.
  assert (Hne : old <> []) by (intros ->; apply Hno, occurs_nil).
  apply contains_false in Hno.
  induction s as [|c s IH].
  - apply replace_nil; assumption.
  - cbn [contains] in Hno; apply orb_false_iff in Hno as [H1 H2].
    rewrite replace_step, IH by assumption; reflexivity.
Qed.

Lemma replace_all_absent (d : table) (c : text) :
  (forall old, In old (keys d) -> ~ occurs old c) -> replace_all d c = c.
Proof.
  unfold replace_all; induction d as [|[o n] d IH]; intros H; simpl.
  - reflexivity.
  - rewrite replace_absent by (apply H; left; reflexivity).
    apply IH; intros old Hin; apply H; right; exact Hin.
Qed.

Lemma unchanged_content_no_write (self : Corrector) (file_path : path)
    (w : World) (content : text) :
  read_text (w_fs w) file_path = Some content ->
  replace_all (guid_mappings self) content = content ->
  replace_guids_in_file self file_path w = (false, w).
Proof.
  intros Hr He; unfold replace_guids_in_file; rewrite Hr, He.
  rewrite text_eqb_refl; reflexivity.
Qed.

(** C6. A target file that can be read and whose content has no occurrence
    of any old GUID of the mapping table is reported unmodified, and the
    world after the call is the world before it: the file system (so the
    file's content), the record of writes and the log are unchanged. *)
Theorem unmapped_file_untouched (self : Corrector) (file_path : path)
    (w : World) (content : text) :
  read_text (w_fs w) file_path = Some content ->
  (forall old, In old (keys (guid_mappings self)) -> ~ occurs old content) ->
  replace_guids_in_file self file_path w = (false, w).
Proof.
  intros Hr Hno; apply unchanged_content_no_write with (content := content);
    [assumption | apply replace_all_absent; assumption].
Qed.
Lemma no_key_occurs_dec (d : table) (c : text) :
  forallb (fun k => negb (contains k c)) (keys d) = true ->
  forall old, In old (keys d) -> ~ occurs old c.
Proof.
  intros H old Hin; rewrite forallb_forall in H.
  apply contains_false; specialize (H old Hin).
  destruct (contains old c); [discriminate | reflexivity].
Qed.

Lemma unmapped_file_untouched_witness :
  read_text (w_fs demo_world) [str "proj"; str "Scene.unity.meta"] =
    Some (str "guid: " ++ hex32 "c") /\
  (forall old, In old (keys (guid_mappings demo_built)) ->
     ~ occurs old (str "guid: " ++ hex32 "c")) /\
  replace_guids_in_file demo_built [str "proj"; str "Scene.unity.meta"] demo_world =
    (false, demo_world).
Proof.
  assert (Hno : forall old, In old (keys (guid_mappings demo_built)) ->
                  ~ occurs old (str "guid: " ++ hex32 "c")).
  { apply no_key_occurs_dec; vm_compute; reflexivity. }
  split; [reflexivity|]; split; [exact Hno|].
  exact (unmapped_file_untouched demo_built [str "proj"; str "Scene.unity.meta"]
           demo_world eq_refl Hno).
Defined.

(** ** Runs of hexadecimal digits *)






(** One pair [(old, new)] whose old side is a GUID, applied to a text cut
    in runs. *)
Section OnePair.

Variables old new : text.
Hypothesis old_lhex : all_lhex old.
Hypothesis old_length : length old = 32.






End OnePair.

Lemma guidb_spec (g : text) : guidb g = true <-> is_guid g.
Proof.
  unfold guidb, is_guid, all_lhex.
  rewrite andb_true_iff, Nat.eqb_eq, forallb_forall, Forall_forall; tauto.
Qed.

Lemma guid_table_spec (d : table) :
  guid_table d = true <->
  forall o n, In (o, n) d -> is_guid o /\ is_guid n.
Proof.
  unfold guid_table; rewrite forallb_forall; split.
  - intros H o n Hin; specialize (H _ Hin); simpl in H.
    apply andb_true_iff in H as [H1 H2]; split; apply guidb_spec; assumption.
  - intros H [o n] Hin; destruct (H o n Hin) as [H1 H2]; simpl.
    apply andb_true_iff; split; apply guidb_spec; assumption.
Qed.






Lemma dict_get_None (d : table) (k : text) :
  dict_get d k = None <-> ~ In k (keys d).
Proof.
  induction d as [|[k' v'] d IH]; simpl.
  - tauto.
  - destruct (text_eqb k' k) eqn:E.
    + apply text_eqb_eq in E; split; [discriminate | tauto].
    + apply text_eqb_neq in E; rewrite IH; tauto.
Qed.

(** *** Sequential application of the pairs *)






(** *** The whole table on a text cut in runs *)













(** *** Occurrences of a GUID in a delimited text *)




(** ** The file system *)

Lemma read_text_lookup (fs : FS) (p : path) (c : text) :
  read_text fs p = Some c <-> exists wr, lookup fs p = Some (File (Some c) wr).
Proof.
  unfold read_text; destruct (lookup fs p) as [[[c'|] wr|]|]; split;
    try discriminate; try (intros [wr' H]; discriminate).
  - intros H; injection H as ->; eauto.
  - intros [wr' H]; injection H as -> _; reflexivity.
Qed.

Lemma write_text_present (fs : FS) (p : path) (c : option text) (wr : bool) (s : text) :
  lookup fs p = Some (File c wr) ->
  write_text fs p s = if wr then Some (map (set_content p s) fs) else None.
Proof. unfold write_text; intros ->; destruct wr; reflexivity. Qed.

Lemma lookup_set_content (fs : FS) (p q : path) (s : text) :
  lookup (map (set_content p s) fs) q =
  match lookup fs q with
  | Some (File c wr) =>
      if path_eqb q p then Some (File (Some s) wr) else Some (File c wr)
  | other => other
  end.
Proof.
  induction fs as [|[q' n] fs IH]; simpl; [reflexivity|].
  destruct n as [c wr|]; simpl.
  - destruct (path_eqb q' p) eqn:E1; simpl; destruct (path_eqb q' q) eqn:E2;
      try exact IH.
    + apply path_eqb_eq in E1, E2; subst; rewrite path_eqb_refl; reflexivity.
    + apply path_eqb_eq in E2; subst q'; rewrite E1; reflexivity.
  - destruct (path_eqb q' q); [reflexivity | exact IH].
Qed.

Lemma read_own_write (fs : FS) (p : path) (c : option text) (wr : bool) (s : text) :
  lookup fs p = Some (File c wr) ->
  read_text (map (set_content p s) fs) p = Some s.
Proof.
  intros H; unfold read_text; rewrite lookup_set_content, H, path_eqb_refl.
  reflexivity.
Qed.

Lemma lookup_other_write (fs : FS) (p q : path) (s : text) :
  q <> p -> lookup (map (set_content p s) fs) q = lookup fs q.
Proof.
  intros H; rewrite lookup_set_content.
  apply path_eqb_neq in H; rewrite H.
  destruct (lookup fs q) as [[c wr|]|]; reflexivity.
Qed.

(** ** [replace_guids_in_file] *)



(** ** The loop over the target files *)

Lemma substitute_cons (self : Corrector) (p : path) (rest : list path)
    (counts : nat * nat) (w : World) :
  substitute self (p :: rest) counts w =
  substitute self rest
    (fst counts + 1,
     snd counts + if fst (replace_guids_in_file self p w) then 1 else 0)
    (snd (replace_guids_in_file self p w)).
Proof.
  simpl; destruct (replace_guids_in_file self p w) as [[|] w']; simpl;
    [reflexivity | rewrite Nat.add_0_r; reflexivity].
Qed.

(** Every file is counted as processed. *)
Lemma substitute_processed (self : Corrector) (l : list path)
    (counts : nat * nat) (w : World) :
  fst (fst (substitute self l counts w)) = fst counts + length l.
Proof.
  revert counts w; induction l as [|p l IH]; intros counts w.
  - simpl; lia.
  - rewrite substitute_cons, IH; simpl; lia.
Qed.









(** ** The mapping table *)

Lemma dict_get_set_same (d : table) (k v : text) :
  dict_get (dict_set k v d) k = Some v.
Proof.
  induction d as [|[k' v'] d IH]; simpl.
  - rewrite text_eqb_refl; reflexivity.
  - destruct (text_eqb k' k) eqn:E; simpl; rewrite E; [reflexivity | exact IH].
Qed.

Lemma dict_get_set_other (d : table) (k v k0 : text) :
  k0 <> k -> dict_get (dict_set k v d) k0 = dict_get d k0.
Proof.
  intros Hne; induction d as [|[k' v'] d IH]; simpl.
  - assert (E : text_eqb k k0 = false) by (apply text_eqb_neq; congruence).
    rewrite E; reflexivity.
  - destruct (text_eqb k' k) eqn:E; simpl.
    + apply text_eqb_eq in E; subst k'.
      assert (E : text_eqb k k0 = false) by (apply text_eqb_neq; congruence).
      rewrite E; reflexivity.
    + destruct (text_eqb k' k0); [reflexivity | exact IH].
Qed.

Lemma dict_set_In (d : table) (k v o n : text) :
  In (o, n) (dict_set k v d) -> (o, n) = (k, v) \/ In (o, n) d.
Proof.
  induction d as [|[k' v'] d IH]; simpl.
  - intros [H|[]]; left; congruence.
  - destruct (text_eqb k' k) eqn:E; simpl.
    + apply text_eqb_eq in E; subst k'.
      intros [H|H]; [left; congruence | right; right; assumption].
    + intros [H|H]; [right; left; assumption|].
      destruct (IH H); [left | right; right]; assumption.
Qed.

Lemma dict_set_keys (d : table) (k v x : text) :
  In x (keys (dict_set k v d)) <-> x = k \/ In x (keys d).
Proof.
  unfold keys; induction d as [|[k' v'] d IH]; simpl.
  - split; [intros [H|[]]; left; congruence | intros [H|[]]; left; congruence].
  - destruct (text_eqb k' k) eqn:E; simpl.
    + apply text_eqb_eq in E; subst k'; split; [tauto|].
      intros [H|H]; [left; congruence | assumption].
    + rewrite IH; split; [tauto|]; intros [H|[H|H]]; auto.
Qed.

Lemma dict_set_NoDup (d : table) (k v : text) :
  NoDup (keys d) -> NoDup (keys (dict_set k v d)).
Proof.
  induction d as [|[k' v'] d IH]; simpl; intros H.
  - constructor; [intros [] | constructor].
  - inversion H as [|? ? Hn Hd]; subst.
    destruct (text_eqb k' k) eqn:E; simpl.
    + constructor; assumption.
    + constructor; [|apply IH; assumption].
      intros Hin; apply dict_set_keys in Hin as [Hin|Hin]; [|contradiction].
      apply text_eqb_neq in E; congruence.
Qed.

(** ** [extract_guid_from_meta] and [build_guid_mappings] *)

Lemma extract_spec (p : path) (w : World) :
  extract_guid_from_meta p w =
  (guid_of (w_fs w) p,
   mkWorld (w_fs w) (w_log w ++ read_error (w_fs w) p) (w_writes w)).
Proof.
  unfold extract_guid_from_meta, guid_of, read_error, logger.
  destruct w as [fs lg wr]; simpl.
  destruct (read_text fs p) as [c|]; [|reflexivity].
  rewrite app_nil_r; destruct (re_search c); reflexivity.
Qed.

Lemma truthy_guid_of (fs : FS) (p : path) (g : text) :
  guid_of fs p = Some g -> truthy (Some g) = true.
Proof.
  intros H; apply guid_of_is_guid in H as [Hl _].
  destruct g; [discriminate | reflexivity].
Qed.

Lemma build_step_spec (self : Corrector) (d : table) (w : World) (m : path) :
  fst (build_step self (d, w) m) = record self (w_fs w) d m /\
  w_fs (snd (build_step self (d, w) m)) = w_fs w /\
  w_writes (snd (build_step self (d, w) m)) = w_writes w.
Proof.
  unfold build_step, record, correlation, find_actual.
  destruct (glob_valid (stem m ++ str ".meta")); simpl; [|auto].
  destruct (find (exists_ (w_fs w))
              (rglob (w_fs w) (actual_path self) (stem m ++ str ".meta")))
    as [a|]; [|auto].
  rewrite extract_spec; cbv iota beta.
  rewrite extract_spec; cbn [w_fs w_log w_writes]; cbv iota beta.
  destruct (guid_of (w_fs w) m) as [o|] eqn:Eo; [|simpl; auto].
  rewrite (truthy_guid_of _ _ Eo).
  destruct (guid_of (w_fs w) a) as [n|] eqn:En; [|simpl; auto].
  rewrite (truthy_guid_of _ _ En); simpl; auto.
Qed.

Lemma build_fold_spec (self : Corrector) (l : list path) (d : table) (w : World) :
  fst (fold_left (build_step self) l (d, w)) =
    fold_left (record self (w_fs w)) l d /\
  w_fs (snd (fold_left (build_step self) l (d, w))) = w_fs w /\
  w_writes (snd (fold_left (build_step self) l (d, w))) = w_writes w.
Proof.
  revert d w; induction l as [|m l IH]; intros d w; cbn [fold_left];
    [simpl; auto|].
  destruct (build_step_spec self d w m) as [H1 [H2 H3]].
  destruct (build_step self (d, w) m) as [d' w']; cbn [fst snd] in *.
  destruct (IH d' w') as [I1 [I2 I3]].
  rewrite I1, I2, I3, H1, H2, H3; auto.
Qed.

Lemma build_spec (self : Corrector) (w : World) :
  guid_mappings (fst (build_guid_mappings self w)) =
    fold_left (record self (w_fs w))
      (rglob (w_fs w) (decompiled_path self) meta_glob) (guid_mappings self) /\
  w_fs (snd (build_guid_mappings self w)) = w_fs w /\
  w_writes (snd (build_guid_mappings self w)) = w_writes w.
Proof.
  unfold build_guid_mappings.
  pose proof (build_fold_spec self
                (rglob (w_fs w) (decompiled_path self) meta_glob)
                (guid_mappings self) w) as H.
  destruct (fold_left (build_step self)
              (rglob (w_fs w) (decompiled_path self) meta_glob)
              (guid_mappings self, w)) as [d w']; simpl in *; exact H.
Qed.




Lemma correlation_guids (self : Corrector) (fs : FS) (m : path) (o n : text) :
  correlation self fs m = Some (o, n) -> is_guid o /\ is_guid n.
Proof.
  unfold correlation.
  destruct (glob_valid _); [|discriminate].
  destruct (find _ _) as [a|]; [|discriminate].
  destruct (guid_of fs m) eqn:Eo; [|discriminate].
  destruct (guid_of fs a) eqn:En; [|discriminate].
  intros H; injection H as <- <-; split; eapply guid_of_is_guid; eassumption.
Qed.

(** The table built from the empty table of [__init__] has unique keys and
    maps GUIDs to GUIDs. *)
Lemma record_invariant (self : Corrector) (fs : FS) (l : list path) (d : table) :
  NoDup (keys d) /\ guid_table d = true ->
  NoDup (keys (fold_left (record self fs) l d)) /\
  guid_table (fold_left (record self fs) l d) = true.
Proof.
  revert d; induction l as [|m l IH]; intros d [Hn Hg]; simpl; [auto|].
  apply IH; unfold record.
  destruct (correlation self fs m) as [[o n]|] eqn:E; [|auto].
  split; [apply dict_set_NoDup; assumption|].
  apply guid_table_spec; intros o' n' Hin.
  apply dict_set_In in Hin as [Hin|Hin].
  - injection Hin as -> ->; eapply correlation_guids; eassumption.
  - apply (proj1 (guid_table_spec d) Hg); assumption.
Qed.

Lemma build_invariant (self : Corrector) (w : World) :
  guid_mappings self = [] ->
  NoDup (keys (guid_mappings (fst (build_guid_mappings self w)))) /\
  guid_table (guid_mappings (fst (build_guid_mappings self w))) = true.
Proof.
  intros H; destruct (build_spec self w) as [-> _].
  apply record_invariant; rewrite H; split; [constructor | reflexivity].
Qed.




(** ** Case of the GUIDs *)

Lemma guid_lower (k : text) : is_guid k -> lower k = k.
Proof. intros [_ H]; apply lower_lhex; assumption. Qed.

Lemma occurs_same_length (k u : text) :
  occurs k u -> length k = length u -> u = k.
Proof.
  intros [p [q ->]] Hl; rewrite !length_app in Hl.
  destruct p; [|simpl in Hl; lia].
  destruct q; [|simpl in Hl; lia].
  simpl; rewrite app_nil_r; reflexivity.
Qed.

Lemma built_keys_lower (self0 : Corrector) (w0 : World) (k : text) :
  guid_mappings self0 = [] ->
  In k (keys (guid_mappings (fst (build_guid_mappings self0 w0)))) ->
  is_guid k.
Proof.
  intros H0 Hin; destruct (build_invariant self0 w0 H0) as [_ Hg].
  unfold keys in Hin; apply in_map_iff in Hin as [[o n] [<- Hin]].
  apply (proj1 (guid_table_spec _) Hg o n Hin).
Qed.

(** C9. The keys of the table built are lowercase, since extraction
    lowercases the GUIDs, and replacement is literal.  So a spelling of a
    GUID that is not all lowercase is left as it is by the table; and a
    target file in which every occurrence of a spelling of an old GUID is
    not all lowercase is reported unmodified, the world (file system, log,
    record of writes) being left as it was. *)
Theorem uppercase_spelling_not_replaced (self0 : Corrector) (w0 : World)
    (file_path : path) (w : World) (content : text) :
  guid_mappings self0 = [] ->
  read_text (w_fs w) file_path = Some content ->
  (forall pre u post,
     content = pre ++ u ++ post ->
     In (lower u) (keys (guid_mappings (fst (build_guid_mappings self0 w0)))) ->
     u <> lower u) ->
  (forall k, In k (keys (guid_mappings (fst (build_guid_mappings self0 w0)))) ->
     lower k = k) /\
  (forall u, length u = 32 -> u <> lower u ->
     replace_all (guid_mappings (fst (build_guid_mappings self0 w0))) u = u) /\
  replace_guids_in_file (fst (build_guid_mappings self0 w0)) file_path w = (false, w).
Proof.
  intros H0 Hr Hup.
  assert (Hk : forall k,
             In k (keys (guid_mappings (fst (build_guid_mappings self0 w0)))) ->
             is_guid k)
    by (intros k; apply built_keys_lower; assumption).
  repeat split.
  - intros k Hin; apply guid_lower, Hk; assumption.
  - intros u Hl Hu; apply replace_all_absent; intros k Hin Ho.
    destruct (Hk k Hin) as [Hkl Hkh].
    apply occurs_same_length in Ho; [|lia]; subst u.
    apply Hu; symmetry; apply lower_lhex; assumption.
  - apply unchanged_content_no_write with (content := content); [assumption|].
    apply replace_all_absent; intros k Hin [pre [post E]].
    apply (Hup pre k post E).
    + rewrite guid_lower by (apply Hk; assumption); assumption.
    + rewrite guid_lower by (apply Hk; assumption); reflexivity.
Qed.

Lemma uppercase_spelling_not_replaced_witness :
  let content := str "m_Script: {guid: " ++ hex32 "A" ++ str "}" in
  guid_mappings demo = [] /\
  read_text (w_fs demo_world) [str "proj"; str "Upper.prefab"] = Some content /\
  occurs (hex32 "A") content /\
  In (lower (hex32 "A")) (keys (guid_mappings (fst (build_guid_mappings demo demo_world)))) /\
  replace_guids_in_file (fst (build_guid_mappings demo demo_world))
    [str "proj"; str "Upper.prefab"] demo_world = (false, demo_world).
Proof.
  intros content.
  split; [reflexivity|]; split; [reflexivity|].
  split; [apply contains_spec; vm_compute; reflexivity|].
  split; [left; reflexivity|].
  apply (@uppercase_spelling_not_replaced demo demo_world
           [str "proj"; str "Upper.prefab"] demo_world content eq_refl eq_refl).
  intros pre u post E [Hk|[]] Hu.
  assert (Ho : contains (hex32 "a") content = true).
  { apply contains_spec; exists pre, post.
    rewrite E, Hu, <- Hk; reflexivity. }
  vm_compute in Ho; discriminate.
Defined.
(** ** Errors of the build phase *)



(** ** Failures in the loop over the target files *)




(** ** [validate_paths] and the early exits of [correct_guids] *)




(** * Further properties of the code *)

(** ** Patterns, names and stems *)

Lemma fnmatch_plain (pat nm : text) :
  plain pat = true -> fnmatch pat nm = text_eqb pat nm.
Proof.
  revert nm; induction pat as [|c pat IH]; intros nm Hp.
  - destruct nm; reflexivity.
  - simpl in Hp; apply andb_true_iff in Hp as [Hc Hp].
    apply andb_true_iff in Hc as [Hc _].
    apply andb_true_iff in Hc as [H1 H2].
    apply negb_true_iff in H1, H2.
    cbn [fnmatch]; rewrite H1.
    destruct nm as [|d nm]; [reflexivity|].
    rewrite H2, IH by assumption; reflexivity.
Qed.

Lemma fnmatch_star (pat nm : text) :
  fnmatch (42%N :: pat) nm = true <->
  exists pre n, nm = pre ++ n /\ fnmatch pat n = true.
Proof.
  cbn [fnmatch]; rewrite N.eqb_refl.
  induction nm as [|d nm IH].
  - rewrite orb_false_r; split.
    + intros H; exists [], []; auto.
    + intros [pre [n [E H]]]; symmetry in E.
      apply app_eq_nil in E as [-> ->]; exact H.
  - rewrite orb_true_iff, IH; split.
    + intros [H | [pre [n [-> H]]]].
      * exists [], (d :: nm); auto.
      * exists (d :: pre), n; auto.
    + intros [pre [n [E H]]]; destruct pre as [|x pre]; simpl in E.
      * left; subst n; exact H.
      * right; injection E as _ ->; eauto.
Qed.

Lemma fnmatch_suffix (ext nm : text) :
  plain ext = true ->
  (fnmatch (42%N :: ext) nm = true <-> exists pre, nm = pre ++ ext).
Proof.
  intros Hp; rewrite fnmatch_star; split.
  - intros [pre [n [-> H]]]; rewrite fnmatch_plain in H by assumption.
    apply text_eqb_eq in H; subst n; eauto.
  - intros [pre ->]; exists pre, ext; split; [reflexivity|].
    rewrite fnmatch_plain by assumption; apply text_eqb_refl.
Qed.

Lemma ends_with_spec (ext nm : text) :
  ends_with ext nm = true <-> exists pre, nm = pre ++ ext.
Proof.
  unfold ends_with; rewrite starts_with_spec; split.
  - intros [q H]; exists (rev q).
    rewrite <- (rev_involutive nm), H, rev_app_distr, rev_involutive; reflexivity.
  - intros [pre ->]; exists (rev pre); apply rev_app_distr.
Qed.

Lemma rglob_In (fs : FS) (root : path) (pat : text) (p : path) :
  In p (rglob fs root pat) <->
  In p (map fst fs) /\ under root p = true /\ fnmatch pat (name p) = true.
Proof.
  unfold rglob; rewrite in_map_iff; split.
  - intros [[q n] [<- H]]; apply filter_In in H as [H1 H2]; simpl in *.
    apply andb_true_iff in H2 as [H2 H3]; repeat split; auto.
    apply in_map_iff; exists (q, n); auto.
  - intros [H1 [H2 H3]]; apply in_map_iff in H1 as [[q n] [<- H1]].
    exists (q, n); split; [reflexivity|].
    apply filter_In; split; [assumption|]; simpl in *.
    rewrite H2, H3; reflexivity.
Qed.

Lemma rglob_paths (fs : FS) (root : path) (pat : text) :
  rglob fs root pat =
  filter (fun p => under root p && fnmatch pat (name p)) (map fst fs).
Proof.
  unfold rglob; induction fs as [|[q n] fs IH]; simpl; [reflexivity|].
  destruct (under root q && fnmatch pat (name q)); simpl; rewrite IH; reflexivity.
Qed.

Lemma rindex_none (c : char) (s : text) : ~ In c s -> rindex c s = None.
Proof.
  induction s as [|x s IH]; intros H; simpl; [reflexivity|].
  rewrite IH by (intros Hin; apply H; right; assumption).
  destruct (N.eqb_spec x c) as [->|]; [|reflexivity].
  exfalso; apply H; left; reflexivity.
Qed.

Lemma rindex_last (c : char) (a b : text) :
  ~ In c b -> rindex c (a ++ c :: b) = Some (length a).
Proof.
  intros H; induction a as [|x a IH]; simpl.
  - rewrite rindex_none by assumption; rewrite N.eqb_refl; reflexivity.
  - rewrite IH; reflexivity.
Qed.

Lemma stem_of_meta_name (p : path) (pre : text) :
  name p = pre ++ str ".meta" ->
  stem p = match pre with [] => str ".meta" | _ :: _ => pre end.
Proof.
  intros E; unfold stem; rewrite E.
  change (str ".meta") with (46%N :: str "meta").
  rewrite rindex_last.
  2:{ vm_compute; intros H; repeat (destruct H as [H|H]; [discriminate|]); exact H. }
  destruct pre as [|x pre]; [reflexivity|].
  remember (x :: pre) as L eqn:EL.
  assert (HL : 0 < length L) by (subst L; simpl; lia).
  assert (Hc : (0 <? length L) &&
               (length L <? length (L ++ 46%N :: str "meta") - 1) = true).
  { apply andb_true_iff; split; apply Nat.ltb_lt; [assumption|].
    rewrite length_app; simpl; lia. }
  rewrite Hc, firstn_app, firstn_all, Nat.sub_diag; simpl.
  rewrite app_nil_r; subst L; reflexivity.
Qed.

(** X9. The pattern that [build_guid_mappings] looks for in the actual
    tree is the file name of the decompiled descriptor itself, except for a
    descriptor called [.meta], whose stem is [.meta] and whose pattern is
    [.meta.meta]. *)
Theorem searched_pattern_is_own_name (fs : FS) (root p : path) :
  In p (rglob fs root meta_glob) ->
  (name p <> str ".meta" -> stem p ++ str ".meta" = name p) /\
  (name p = str ".meta" -> stem p ++ str ".meta" = str ".meta.meta").
Proof.
  intros Hin; apply rglob_In in Hin as [_ [_ Hm]].
  change meta_glob with (42%N :: str ".meta") in Hm.
  apply fnmatch_suffix in Hm as [pre E]; [|reflexivity].
  rewrite (stem_of_meta_name p pre E); split.
  - intros Hne; destruct pre as [|x pre]; [contradiction | symmetry; exact E].
  - intros En; destruct pre as [|x pre]; [reflexivity|].
    rewrite En in E; apply (f_equal (@length char)) in E.
    rewrite length_app in E; simpl in E; lia.
Qed.

Lemma searched_pattern_is_own_name_witness :
  In [str "dec"; str "Foo.meta"] (rglob demo_fs [str "dec"] meta_glob) /\
  stem [str "dec"; str "Foo.meta"] ++ str ".meta" = str "Foo.meta" /\
  In [str "dec"; str ".meta"]
     (rglob [([str "dec"; str ".meta"], File None true)] [str "dec"] meta_glob) /\
  stem [str "dec"; str ".meta"] ++ str ".meta" = str ".meta.meta".
Proof.
  assert (H1 : In [str "dec"; str "Foo.meta"] (rglob demo_fs [str "dec"] meta_glob))
    by (left; reflexivity).
  assert (H2 : In [str "dec"; str ".meta"]
                 (rglob [([str "dec"; str ".meta"], File None true)]
                    [str "dec"] meta_glob))
    by (left; reflexivity).
  split; [exact H1|]; split.
  - apply (proj1 (searched_pattern_is_own_name _ _ _ H1)).
    vm_compute; discriminate.
  - split; [exact H2|].
    apply (proj2 (searched_pattern_is_own_name _ _ _ H2)); reflexivity.
Defined.
Lemma plain_app (a b : text) : plain (a ++ b) = plain a && plain b.
Proof. unfold plain; apply forallb_app. Qed.

(** X10. A decompiled descriptor whose stem has no [*], [?] or [[] is
    correlated only with an entry that lies below the actual package path
    and whose name is exactly the stem followed by [.meta]. *)
Theorem correlated_descriptor_has_same_name (self : Corrector) (w : World)
    (m a : path) :
  plain (stem m) = true ->
  find_actual self (stem m) w = Some a ->
  In a (map fst (w_fs w)) /\
  under (actual_path self) a = true /\
  name a = stem m ++ str ".meta".
Proof.
  intros Hp Hf; unfold find_actual in Hf.
  apply find_some in Hf as [Hin _].
  apply rglob_In in Hin as [H1 [H2 H3]].
  rewrite fnmatch_plain in H3 by (rewrite plain_app, Hp; reflexivity).
  apply text_eqb_eq in H3; auto.
Qed.

Lemma correlated_descriptor_has_same_name_witness :
  plain (stem [str "dec"; str "Foo.meta"]) = true /\
  find_actual demo (stem [str "dec"; str "Foo.meta"]) twin_world =
    Some [str "act"; str "x"; str "Foo.meta"] /\
  name [str "act"; str "x"; str "Foo.meta"] =
    stem [str "dec"; str "Foo.meta"] ++ str ".meta".
Proof.
  split; [reflexivity|]; split; [reflexivity|].
  exact (proj2 (proj2 (@correlated_descriptor_has_same_name demo twin_world
                         [str "dec"; str "Foo.meta"]
                         [str "act"; str "x"; str "Foo.meta"] eq_refl eq_refl))).
Defined.

(** ** [collect_target_files] *)

Lemma extension_pattern (ext : text) : str "*" ++ ext = 42%N :: ext.
Proof. reflexivity. Qed.

Lemma extensions_plain (ext : text) : In ext extensions -> plain ext = true.
Proof.
  intros H; repeat (destruct H as [<-|H]; [reflexivity|]); destruct H.
Qed.

(** X12. [collect_target_files] returns exactly the entries of the file
    system that lie strictly below the project path and whose name ends with
    one of the five extensions. *)
Theorem collected_files_characterised (self : Corrector) (w : World) (p : path) :
  In p (collect_target_files self w) <->
  In p (map fst (w_fs w)) /\
  under (project_path self) p = true /\
  exists ext, In ext extensions /\ ends_with ext (name p) = true.
Proof.
  unfold collect_target_files; rewrite in_flat_map; split.
  - intros [ext [He Hin]]; apply rglob_In in Hin as [H1 [H2 H3]].
    rewrite extension_pattern in H3.
    apply fnmatch_suffix in H3; [|apply extensions_plain; assumption].
    repeat split; auto; exists ext; split; [assumption|].
    apply ends_with_spec; assumption.
  - intros [H1 [H2 [ext [He H3]]]]; exists ext; split; [assumption|].
    apply rglob_In; repeat split; auto.
    rewrite extension_pattern.
    apply fnmatch_suffix; [apply extensions_plain; assumption|].
    apply ends_with_spec; assumption.
Qed.

Lemma rglob_NoDup (fs : FS) (root : path) (pat : text) :
  NoDup (map fst fs) -> NoDup (rglob fs root pat).
Proof. intros H; rewrite rglob_paths; apply NoDup_filter; assumption. Qed.

Lemma one_extension (e1 e2 nm : text) :
  In e1 extensions -> In e2 extensions ->
  ends_with e1 nm = true -> ends_with e2 nm = true -> e1 = e2.
Proof.
  unfold ends_with; intros H1 H2 E1 E2.
  apply starts_with_spec in E1 as [q1 E1], E2 as [q2 E2]; rewrite E1 in E2.
  repeat (destruct H1 as [<-|H1]); try contradiction;
    repeat (destruct H2 as [<-|H2]); try contradiction;
    try reflexivity; vm_compute in E2; discriminate E2.
Qed.

Lemma collect_NoDup_aux (fs : FS) (root : path) (exts : list text) :
  NoDup (map fst fs) -> NoDup exts -> incl exts extensions ->
  NoDup (flat_map (fun ext => rglob fs root (str "*" ++ ext)) exts).
Proof.
  intros Hfs; induction exts as [|e exts IH]; intros Hn Hi; cbn [flat_map].
  - constructor.
  - inversion Hn as [|? ? He Hn']; subst.
    apply NoDup_app.
    + apply rglob_NoDup; assumption.
    + apply IH; [assumption | intros x Hx; apply Hi; right; assumption].
    + intros p Hp Hq; apply in_flat_map in Hq as [e' [He' Hq]].
      apply rglob_In in Hp as [_ [_ Hp]]; apply rglob_In in Hq as [_ [_ Hq]].
      rewrite extension_pattern in Hp, Hq.
      assert (Ie : In e extensions) by (apply Hi; left; reflexivity).
      assert (Ie' : In e' extensions) by (apply Hi; right; assumption).
      apply fnmatch_suffix in Hp; [|apply extensions_plain; assumption].
      apply fnmatch_suffix in Hq; [|apply extensions_plain; assumption].
      apply ends_with_spec in Hp, Hq.
      assert (e = e') by (eapply one_extension; eassumption).
      subst e'; contradiction.
Qed.

(** X13. When the file system lists every path once, no target file is
    collected twice. *)
Theorem collected_files_distinct (self : Corrector) (w : World) :
  NoDup (map fst (w_fs w)) -> NoDup (collect_target_files self w).
Proof.
  intros H; apply collect_NoDup_aux; [assumption | | apply incl_refl].
  unfold extensions.
  repeat (constructor;
          [intros Hin; repeat (destruct Hin as [Hin|Hin]; [discriminate|]);
           exact Hin|]).
  constructor.
Qed.

Lemma collected_files_distinct_witness :
  NoDup (map fst (w_fs demo_world)) /\
  NoDup (collect_target_files demo demo_world).
Proof.
  assert (H : NoDup (map fst (w_fs demo_world))).
  { vm_compute.
    repeat (constructor;
            [intros Hin; repeat (destruct Hin as [Hin|Hin]; [discriminate|]);
             exact Hin|]).
    constructor. }
  split; [exact H | exact (@collected_files_distinct demo demo_world H)].
Defined.
(** ** [validate_paths] *)

Lemma check_path_ok (pd : path * text) (w : World) :
  dir_ok (w_fs w) (fst pd) -> check_path pd w = (true, w).
Proof.
  destruct pd as [p d]; intros [H1 H2]; unfold check_path; simpl in *.
  rewrite H1; simpl.
  destruct (rglob (w_fs w) p meta_glob); [congruence | reflexivity].
Qed.

Lemma check_path_fail (pd : path * text) (w : World) :
  ~ dir_ok (w_fs w) (fst pd) ->
  check_path pd w =
    (false, logger (fst (failure_entry (w_fs w) pd))
              (snd (failure_entry (w_fs w) pd)) w).
Proof.
  destruct pd as [p d]; intros H; unfold check_path, failure_entry, dir_ok in *.
  simpl in *; destruct (exists_ (w_fs w) p); simpl; [|reflexivity].
  destruct (rglob (w_fs w) p meta_glob); [reflexivity|].
  exfalso; apply H; split; [reflexivity | discriminate].
Qed.

Lemma dir_ok_dec (fs : FS) (p : path) : dir_ok fs p \/ ~ dir_ok fs p.
Proof.
  unfold dir_ok; destruct (exists_ fs p).
  - destruct (rglob fs p meta_glob).
    + right; intros [_ H]; congruence.
    + left; split; [reflexivity | discriminate].
  - right; intros [H _]; discriminate.
Qed.

Lemma validate_loop_cases (paths : list (path * text)) (w : World) :
  ((forall pd, In pd paths -> dir_ok (w_fs w) (fst pd)) /\
   validate_loop paths w = (true, w)) \/
  (exists pre pd post,
     paths = pre ++ pd :: post /\
     (forall q, In q pre -> dir_ok (w_fs w) (fst q)) /\
     ~ dir_ok (w_fs w) (fst pd) /\
     validate_loop paths w =
       (false, logger (fst (failure_entry (w_fs w) pd))
                 (snd (failure_entry (w_fs w) pd)) w)).
Proof.
  induction paths as [|pd paths IH].
  - left; split; [intros pd [] | reflexivity].
  - cbn [validate_loop].
    destruct (dir_ok_dec (w_fs w) (fst pd)) as [Hok|Hbad].
    + rewrite (check_path_ok pd w Hok).
      destruct IH as [[Hall Hv]|[pre [pd' [post [E [Hpre [Hbad Hv]]]]]]].
      * left; split; [|assumption].
        intros x [Hx|Hx]; [subst x; assumption | apply Hall; assumption].
      * right; exists (pd :: pre), pd', post.
        split; [rewrite E; reflexivity|]; split; [|split; assumption].
        intros x [Hx|Hx]; [subst x; assumption | apply Hpre; assumption].
    + rewrite (check_path_fail pd w Hbad).
      right; exists [], pd, paths.
      split; [reflexivity|]; split; [intros x []|]; split; [assumption|reflexivity].
Qed.

(** X1. [validate_paths] returns [True] exactly when each of the three
    directories exists and has an entry matching [*.meta] below it; it then
    leaves the world, log included, as it was. *)
Theorem validate_paths_accepts (self : Corrector) (w : World) :
  (fst (validate_paths self w) = true <->
   dir_ok (w_fs w) (decompiled_path self) /\
   dir_ok (w_fs w) (actual_path self) /\
   dir_ok (w_fs w) (project_path self)) /\
  (fst (validate_paths self w) = true -> snd (validate_paths self w) = w).
Proof.
  change (validate_paths self w) with (validate_loop (checked_paths self) w).
  destruct (validate_loop_cases (checked_paths self) w)
    as [[Hall Hv]|[pre [pd [post [E [Hpre [Hbad Hv]]]]]]]; rewrite Hv; simpl.
  - split; [|reflexivity]; split; [|reflexivity]; intros _.
    repeat split;
      [apply (Hall (decompiled_path self, str "Decompiled package path"))
      |apply (Hall (decompiled_path self, str "Decompiled package path"))
      |apply (Hall (actual_path self, str "Actual package path"))
      |apply (Hall (actual_path self, str "Actual package path"))
      |apply (Hall (project_path self, str "Unity project path"))
      |apply (Hall (project_path self, str "Unity project path"))];
      simpl; auto.
  - split; [|discriminate]; split; [discriminate|].
    intros [H1 [H2 H3]]; exfalso; apply Hbad.
    assert (Hin : In pd (checked_paths self))
      by (rewrite E; apply in_or_app; right; left; reflexivity).
    destruct Hin as [<-|[<-|[<-|[]]]]; assumption.
Qed.

(** X2. When [validate_paths] returns [False], the directories before the
    first failing one (in the order decompiled, actual, project) all pass,
    the directories after it are not examined, and the log gains exactly
    one [ERROR] entry: "does not exist" when the failing directory is
    missing, "no .meta files" otherwise.  The file system is untouched. *)
Theorem validate_paths_reports_first_failure (self : Corrector) (w : World) :
  fst (validate_paths self w) = false ->
  exists pre pd post,
    checked_paths self = pre ++ pd :: post /\
    (forall q, In q pre -> dir_ok (w_fs w) (fst q)) /\
    ~ dir_ok (w_fs w) (fst pd) /\
    snd (validate_paths self w) =
      mkWorld (w_fs w) (w_log w ++ [failure_entry (w_fs w) pd]) (w_writes w).
Proof.
  change (validate_paths self w) with (validate_loop (checked_paths self) w).
  destruct (validate_loop_cases (checked_paths self) w)
    as [[Hall Hv]|[pre [pd [post [E [Hpre [Hbad Hv]]]]]]]; rewrite Hv; simpl.
  - discriminate.
  - intros _; exists pre, pd, post.
    split; [assumption|]; split; [assumption|]; split; [assumption|].
    unfold logger; destruct (failure_entry (w_fs w) pd); reflexivity.
Qed.

Lemma validate_paths_reports_first_failure_witness :
  fst (validate_paths (init [str "dec"] [str "gone"] [str "nowhere"]) demo_world)
    = false /\
  w_log (snd (validate_paths (init [str "dec"] [str "gone"] [str "nowhere"])
                demo_world)) =
    [(ERROR, PathMissing (str "Actual package path") [str "gone"])] /\
  exists pre pd post,
    checked_paths (init [str "dec"] [str "gone"] [str "nowhere"]) =
      pre ++ pd :: post /\
    (forall q, In q pre -> dir_ok (w_fs demo_world) (fst q)) /\
    ~ dir_ok (w_fs demo_world) (fst pd) /\
    snd (validate_paths (init [str "dec"] [str "gone"] [str "nowhere"]) demo_world) =
      mkWorld (w_fs demo_world)
        (w_log demo_world ++ [failure_entry (w_fs demo_world) pd])
        (w_writes demo_world).
Proof.
  split; [reflexivity|]; split; [reflexivity|].
  exact (@validate_paths_reports_first_failure
           (init [str "dec"] [str "gone"] [str "nowhere"]) demo_world eq_refl).
Defined.
(** ** [extract_guid_from_meta] *)

(** X3. Whatever the file, a value returned by [extract_guid_from_meta] is
    made of 32 lowercase hexadecimal digits, and is returned without any log
    entry.  The call never changes the file system; it changes the log only
    when reading the file raised. *)
Theorem extracted_value_is_guid (meta_path : path) (w : World) :
  (forall g, fst (extract_guid_from_meta meta_path w) = Some g ->
     is_guid g /\ lower g = g /\ snd (extract_guid_from_meta meta_path w) = w) /\
  w_fs (snd (extract_guid_from_meta meta_path w)) = w_fs w /\
  w_writes (snd (extract_guid_from_meta meta_path w)) = w_writes w /\
  (read_text (w_fs w) meta_path <> None ->
   snd (extract_guid_from_meta meta_path w) = w).
Proof.
  repeat split.
  - rewrite extract_guid_of in H; eapply guid_of_is_guid; eassumption.
  - rewrite extract_guid_of in H; eapply guid_of_is_guid; eassumption.
  - rewrite extract_guid_of in H; apply guid_lower.
    eapply guid_of_is_guid; eassumption.
  - revert H; unfold extract_guid_from_meta.
    destruct (read_text (w_fs w) meta_path); [|discriminate].
    destruct (re_search t); [reflexivity | discriminate].
  - rewrite extract_spec; reflexivity.
  - rewrite extract_spec; reflexivity.
  - intros H; unfold extract_guid_from_meta.
    destruct (read_text (w_fs w) meta_path); [|congruence].
    destruct (re_search t); reflexivity.
Qed.

(** ** [build_guid_mappings] *)

Lemma build_step_log (self : Corrector) (d : table) (w : World) (m : path) :
  exists l,
    w_log (snd (build_step self (d, w) m)) = w_log w ++ l /\
    Forall build_entry l.
Proof.
  unfold build_step.
  destruct (glob_valid (stem m ++ str ".meta")); simpl negb; cbv iota.
  2:{ exists [(ERROR, ProcessError m)]; split; [reflexivity|].
      constructor; [exact I | constructor]. }
  destruct (find_actual self (stem m) w) as [a|].
  2:{ exists []; split; [simpl; rewrite app_nil_r; reflexivity | constructor]. }
  rewrite extract_spec; cbv iota beta.
  rewrite extract_spec; cbn [w_fs w_log w_writes]; cbv iota beta.
  assert (Hr : forall p, Forall build_entry (read_error (w_fs w) p)).
  { intros p; unfold read_error; destruct (read_text (w_fs w) p);
      [constructor | constructor; [exact I | constructor]]. }
  destruct (truthy (guid_of (w_fs w) m) && truthy (guid_of (w_fs w) a)).
  - destruct (guid_of (w_fs w) m) as [o|]; [destruct (guid_of (w_fs w) a) as [n|]|].
    + exists (read_error (w_fs w) m ++ read_error (w_fs w) a ++
              [(INFO, Mapped (stem m) o n)]); split.
      * simpl; rewrite <- !app_assoc; reflexivity.
      * repeat (apply Forall_app; split); auto.
        constructor; [exact I | constructor].
    + exists (read_error (w_fs w) m ++ read_error (w_fs w) a); split.
      * simpl; rewrite <- !app_assoc; reflexivity.
      * apply Forall_app; split; auto.
    + exists (read_error (w_fs w) m ++ read_error (w_fs w) a); split.
      * simpl; rewrite <- !app_assoc; reflexivity.
      * apply Forall_app; split; auto.
  - exists (read_error (w_fs w) m ++ read_error (w_fs w) a); split.
    + simpl; rewrite <- !app_assoc; reflexivity.
    + apply Forall_app; split; auto.
Qed.

Lemma build_fold_log (self : Corrector) (l : list path) (d : table) (w : World) :
  exists es,
    w_log (snd (fold_left (build_step self) l (d, w))) = w_log w ++ es /\
    Forall build_entry es.
Proof.
  revert d w; induction l as [|m l IH]; intros d w; cbn [fold_left].
  - exists []; split; [simpl; rewrite app_nil_r; reflexivity | constructor].
  - destruct (build_step_log self d w m) as [e1 [H1 F1]].
    destruct (build_step self (d, w) m) as [d' w']; cbn [snd] in H1.
    destruct (IH d' w') as [e2 [H2 F2]].
    exists (e1 ++ e2); split.
    + rewrite H2, H1, app_assoc; reflexivity.
    + apply Forall_app; split; assumption.
Qed.

(** X4. The build phase only reads: it leaves the file system, the record
    of writes and the three configured paths as they were, and the log it
    returns is the old log followed by entries that are mapping notices,
    descriptor read errors or processing errors. *)
Theorem build_phase_read_only (self : Corrector) (w : World) :
  w_fs (snd (build_guid_mappings self w)) = w_fs w /\
  w_writes (snd (build_guid_mappings self w)) = w_writes w /\
  decompiled_path (fst (build_guid_mappings self w)) = decompiled_path self /\
  actual_path (fst (build_guid_mappings self w)) = actual_path self /\
  project_path (fst (build_guid_mappings self w)) = project_path self /\
  exists es,
    w_log (snd (build_guid_mappings self w)) = w_log w ++ es /\
    Forall build_entry es.
Proof.
  destruct (build_spec self w) as [_ [H2 H3]].
  split; [assumption|]; split; [assumption|].
  unfold build_guid_mappings.
  destruct (build_fold_log self (rglob (w_fs w) (decompiled_path self) meta_glob)
              (guid_mappings self) w) as [es [He Hf]].
  destruct (fold_left (build_step self)
              (rglob (w_fs w) (decompiled_path self) meta_glob)
              (guid_mappings self, w)) as [d w']; simpl in *.
  repeat split; eauto.
Qed.

(** X5. The table built from the empty table of [__init__] has unique
    keys, and its keys and its values are GUIDs of 32 lowercase hexadecimal
    digits. *)
Theorem built_table_well_formed (self : Corrector) (w : World) :
  guid_mappings self = [] ->
  NoDup (keys (guid_mappings (fst (build_guid_mappings self w)))) /\
  forall o n, In (o, n) (guid_mappings (fst (build_guid_mappings self w))) ->
    is_guid o /\ is_guid n.
Proof.
  intros H; destruct (build_invariant self w H) as [H1 H2]; split; [assumption|].
  apply guid_table_spec; assumption.
Qed.

Lemma built_table_well_formed_witness :
  guid_mappings demo = [] /\
  NoDup (keys (guid_mappings (fst (build_guid_mappings demo clash_world)))) /\
  is_guid (hex32 "a") /\ is_guid (hex32 "c").
Proof.
  destruct (@built_table_well_formed demo clash_world eq_refl) as [H1 H2].
  split; [reflexivity|]; split; [exact H1|].
  apply (H2 (hex32 "a") (hex32 "c")); left; reflexivity.
Defined.





Lemma dict_set_length (d : table) (k v : text) :
  length (dict_set k v d) <= S (length d).
Proof.
  induction d as [|[k' v'] d IH]; simpl; [lia|].
  destruct (text_eqb k' k); simpl; lia.
Qed.

Lemma record_length (self : Corrector) (fs : FS) (l : list path) (d : table) :
  length (fold_left (record self fs) l d) <= length d + length l.
Proof.
  revert d; induction l as [|m l IH]; intros d; simpl; [lia|].
  specialize (IH (record self fs d m)).
  assert (length (record self fs d m) <= S (length d)).
  { unfold record; destruct (correlation self fs m) as [[o n]|];
      [apply dict_set_length | lia]. }
  lia.
Qed.

(** X7. The build phase adds at most one pair per descriptor of the
    decompiled tree: the table has at most as many pairs more than before as
    [count_files] counts [*.meta] entries below the decompiled path. *)
Theorem built_table_size (self : Corrector) (w : World) :
  length (guid_mappings (fst (build_guid_mappings self w))) <=
  length (guid_mappings self) +
  count_files self (decompiled_path self) meta_glob w.
Proof.
  destruct (build_spec self w) as [-> _]; apply record_length.
Qed.

Lemma record_keys_kept (self : Corrector) (fs : FS) (l : list path) (d : table)
    (k : text) :
  In k (keys d) -> In k (keys (fold_left (record self fs) l d)).
Proof.
  revert d; induction l as [|m l IH]; intros d H; simpl; [assumption|].
  apply IH; unfold record.
  destruct (correlation self fs m) as [[o n]|]; [|assumption].
  apply dict_set_keys; right; assumption.
Qed.


(** ** Length and identity of [str.replace] *)

Lemma replace_length_aux (old new : text) (n : nat) :
  old <> [] -> length new = length old ->
  forall s, length s <= n -> length (replace old new s) = length s.
Proof.
  intros Hne Hl; induction n as [|n IH]; intros s Hs.
  - destruct s; [|simpl in Hs; lia].
    rewrite replace_nil by assumption; reflexivity.
  - destruct s as [|c s]; [rewrite replace_nil by assumption; reflexivity|].
    destruct (starts_with old (c :: s)) eqn:E.
    + apply starts_with_spec in E as [q Hq]; rewrite Hq in *.
      rewrite replace_match, !length_app by assumption.
      rewrite IH; [lia|].
      rewrite length_app in Hs; destruct old; [congruence | simpl in *; lia].
    + rewrite replace_step by assumption; simpl.
      rewrite IH; [reflexivity | simpl in Hs; lia].
Qed.

Lemma replace_length (old new s : text) :
  length new = length old -> length (replace old new s) = length s.
Proof.
  intros Hl; destruct old as [|a o].
  - destruct new; [|discriminate]; simpl.
    induction s as [|c s IH]; simpl; [reflexivity | rewrite IH; reflexivity].
  - apply replace_length_aux with (n := length s); [discriminate | assumption | lia].
Qed.

Lemma replace_all_length (d : table) (c : text) :
  (forall o n, In (o, n) d -> length n = length o) ->
  length (replace_all d c) = length c.
Proof.
  unfold replace_all; revert c; induction d as [|[o n] d IH]; intros c H; simpl.
  - reflexivity.
  - rewrite IH by (intros; apply H; right; assumption).
    apply replace_length, H; left; reflexivity.
Qed.

Lemma replace_same_aux (old : text) (n : nat) :
  old <> [] -> forall s, length s <= n -> replace old old s = s.
Proof.
  intros Hne; induction n as [|n IH]; intros s Hs.
  - destruct s; [|simpl in Hs; lia]; apply replace_nil; assumption.
  - destruct s as [|c s]; [apply replace_nil; assumption|].
    destruct (starts_with old (c :: s)) eqn:E.
    + apply starts_with_spec in E as [q Hq]; rewrite Hq in *.
      rewrite replace_match by assumption; rewrite IH; [reflexivity|].
      rewrite length_app in Hs; destruct old; [congruence | simpl in *; lia].
    + rewrite replace_step by assumption; rewrite IH;
        [reflexivity | simpl in Hs; lia].
Qed.

Lemma replace_same (old s : text) : replace old old s = s.
Proof.
  destruct old as [|a o].
  - simpl; induction s as [|c s IH]; simpl; [reflexivity | rewrite IH; reflexivity].
  - apply replace_same_aux with (n := length s); [discriminate | lia].
Qed.

(** ** [replace_guids_in_file] *)

Lemma set_content_paths (p : path) (s : text) (fs : FS) :
  map fst (map (set_content p s) fs) = map fst fs.
Proof.
  rewrite map_map; apply map_ext; intros [q [c wr|]]; simpl;
    [destruct (path_eqb q p) | ]; reflexivity.
Qed.

Lemma replace_guids_in_file_cases (self : Corrector) (p : path) (w : World) :
  (read_text (w_fs w) p = None /\
   replace_guids_in_file self p w = (false, logger ERROR (UpdateError p) w)) \/
  (exists c,
     read_text (w_fs w) p = Some c /\
     replace_all (guid_mappings self) c = c /\
     replace_guids_in_file self p w = (false, w)) \/
  (exists c,
     lookup (w_fs w) p = Some (File (Some c) false) /\
     replace_all (guid_mappings self) c <> c /\
     replace_guids_in_file self p w = (false, logger ERROR (UpdateError p) w)) \/
  (exists c,
     lookup (w_fs w) p = Some (File (Some c) true) /\
     replace_all (guid_mappings self) c <> c /\
     replace_guids_in_file self p w =
       (true, logger INFO (Updated p)
                (mkWorld (map (set_content p (replace_all (guid_mappings self) c))
                            (w_fs w))
                         (w_log w) (w_writes w ++ [p])))).
Proof.
  unfold replace_guids_in_file.
  destruct (read_text (w_fs w) p) as [c|] eqn:Hr; [|left; auto].
  right; apply read_text_lookup in Hr as [wr Hl].
  destruct (text_eqb (replace_all (guid_mappings self) c) c) eqn:E; simpl.
  - left; exists c; apply text_eqb_eq in E; auto.
  - right; apply text_eqb_neq in E.
    rewrite (write_text_present _ _ _ Hl); destruct wr.
    + right; exists c; auto.
    + left; exists c; auto.
Qed.

(** X14. [replace_guids_in_file] returns [True] exactly when it wrote the
    file: then the file could be read, the text written is the result of
    the replacements and differs from the text read, the record of writes
    and the log gain one entry each.  When it returns [False] the file
    system and the record of writes are as before.  In both cases every
    other path keeps its node and the set of paths is the same. *)
Theorem modified_iff_written (self : Corrector) (file_path : path) (w : World) :
  (fst (replace_guids_in_file self file_path w) = true ->
   exists c,
     read_text (w_fs w) file_path = Some c /\
     replace_all (guid_mappings self) c <> c /\
     read_text (w_fs (snd (replace_guids_in_file self file_path w))) file_path =
       Some (replace_all (guid_mappings self) c) /\
     w_writes (snd (replace_guids_in_file self file_path w)) =
       w_writes w ++ [file_path] /\
     w_log (snd (replace_guids_in_file self file_path w)) =
       w_log w ++ [(INFO, Updated file_path)]) /\
  (fst (replace_guids_in_file self file_path w) = false ->
   w_fs (snd (replace_guids_in_file self file_path w)) = w_fs w /\
   w_writes (snd (replace_guids_in_file self file_path w)) = w_writes w) /\
  (forall q, q <> file_path ->
     lookup (w_fs (snd (replace_guids_in_file self file_path w))) q =
     lookup (w_fs w) q) /\
  map fst (w_fs (snd (replace_guids_in_file self file_path w))) = map fst (w_fs w).
Proof.
  destruct (replace_guids_in_file_cases self file_path w)
    as [[Hr ->]|[[c [Hr [He ->]]]|[[c [Hl [Hne ->]]]|[c [Hl [Hne ->]]]]]];
    simpl; repeat split; try discriminate; auto.
  - intros _; exists c; repeat split; auto.
    + apply read_text_lookup; eauto.
    + eapply read_own_write; eassumption.
  - intros q Hq; apply lookup_other_write; assumption.
  - apply set_content_paths.
Qed.

(** X15. A file is reported modified only if its text contained an old
    GUID of the table. *)
Theorem modified_file_had_old_guid (self : Corrector) (file_path : path)
    (w : World) :
  fst (replace_guids_in_file self file_path w) = true ->
  exists c k,
    read_text (w_fs w) file_path = Some c /\
    In k (keys (guid_mappings self)) /\ occurs k c.
Proof.
  intros H.
  destruct (replace_guids_in_file_cases self file_path w)
    as [[Hr E]|[[c [Hr [He E]]]|[[c [Hl [Hne E]]]|[c [Hl [Hne E]]]]]];
    rewrite E in H; try discriminate.
  destruct (existsb (fun k => contains k c) (keys (guid_mappings self))) eqn:Ex.
  - apply existsb_exists in Ex as [k [Hk Hc]]; exists c, k.
    split; [apply read_text_lookup; eauto|]; split; [assumption|].
    apply contains_spec; assumption.
  - exfalso; apply Hne, replace_all_absent; intros k Hk Ho.
    apply contains_spec in Ho.
    assert (Ht : existsb (fun k => contains k c) (keys (guid_mappings self)) = true)
      by (apply existsb_exists; eauto).
    congruence.
Qed.

Lemma modified_file_had_old_guid_witness :
  fst (replace_guids_in_file demo_built [str "proj"; str "Scene.unity"] demo_world)
    = true /\
  exists c k,
    read_text (w_fs demo_world) [str "proj"; str "Scene.unity"] = Some c /\
    In k (keys (guid_mappings demo_built)) /\ occurs k c.
Proof.
  split; [reflexivity|].
  exact (@modified_file_had_old_guid demo_built [str "proj"; str "Scene.unity"]
           demo_world eq_refl).
Defined.

(** X16. With a table that maps GUIDs to GUIDs, the text of a file has the
    same length after [replace_guids_in_file] as before. *)
Theorem substitution_keeps_length (self : Corrector) (file_path : path)
    (w : World) (c c' : text) :
  guid_table (guid_mappings self) = true ->
  read_text (w_fs w) file_path = Some c ->
  read_text (w_fs (snd (replace_guids_in_file self file_path w))) file_path =
    Some c' ->
  length c' = length c.
Proof.
  intros Hg Hr Hr'.
  assert (Hlen : length (replace_all (guid_mappings self) c) = length c).
  { apply replace_all_length; intros o n Hin.
    destruct (proj1 (guid_table_spec _) Hg o n Hin) as [[Ho _] [Hn _]]; lia. }
  destruct (replace_guids_in_file_cases self file_path w)
    as [[Hn E]|[[c0 [Hr0 [He E]]]|[[c0 [Hl [Hne E]]]|[c0 [Hl [Hne E]]]]]];
    rewrite E in Hr'; simpl in Hr'; try congruence.
  rewrite (read_own_write _ _ _ Hl) in Hr'.
  assert (c0 = c).
  { assert (Some c0 = Some c)
      by (rewrite <- Hr; symmetry; apply read_text_lookup; eauto).
    congruence. }
  subst c0; injection Hr' as <-; exact Hlen.
Qed.

Lemma substitution_keeps_length_witness :
  let c := str "m_Script: {fileID: 11500000, guid: " ++ hex32 "a" ++ str ", type: 3}" in
  let c' := str "m_Script: {fileID: 11500000, guid: " ++ hex32 "b" ++ str ", type: 3}" in
  guid_table (guid_mappings demo_built) = true /\
  read_text (w_fs demo_world) [str "proj"; str "Scene.unity"] = Some c /\
  read_text (w_fs (snd (replace_guids_in_file demo_built
                          [str "proj"; str "Scene.unity"] demo_world)))
    [str "proj"; str "Scene.unity"] = Some c' /\
  length c' = length c.
Proof.
  intros c c'.
  split; [reflexivity|]; split; [reflexivity|]; split; [reflexivity|].
  exact (@substitution_keeps_length demo_built [str "proj"; str "Scene.unity"]
           demo_world c c' eq_refl eq_refl eq_refl).
Defined.

Lemma replace_all_identity (d : table) (c : text) :
  (forall o n, In (o, n) d -> n = o) -> replace_all d c = c.
Proof.
  unfold replace_all; revert c; induction d as [|[o n] d IH]; intros c Hid; simpl.
  - reflexivity.
  - rewrite (Hid o n) by (left; reflexivity); rewrite replace_same.
    apply IH; intros o' n' Hin; apply Hid; right; assumption.
Qed.

(** X17. A table that maps every GUID to itself (the decompiled and the
    actual descriptors already agree) modifies no file: a readable file is
    reported unmodified and the world is left as it was. *)
Theorem identity_table_modifies_nothing (self : Corrector) (file_path : path)
    (w : World) (c : text) :
  (forall o n, In (o, n) (guid_mappings self) -> n = o) ->
  read_text (w_fs w) file_path = Some c ->
  replace_guids_in_file self file_path w = (false, w).
Proof.
  intros Hid Hr; apply unchanged_content_no_write with (content := c);
    [assumption | apply replace_all_identity; assumption].
Qed.

Lemma identity_table_modifies_nothing_witness :
  (forall o n, In (o, n) [(hex32 "a", hex32 "a")] -> n = o) /\
  replace_guids_in_file (set_mappings demo [(hex32 "a", hex32 "a")])
    [str "proj"; str "Scene.unity"] demo_world = (false, demo_world).
Proof.
  assert (Hid : forall o n, In (o, n) [(hex32 "a", hex32 "a")] -> n = o).
  { intros o n [H|[]]; injection H as <- <-; reflexivity. }
  split; [exact Hid|].
  exact (@identity_table_modifies_nothing
           (set_mappings demo [(hex32 "a", hex32 "a")])
           [str "proj"; str "Scene.unity"] demo_world _ Hid eq_refl).
Defined.
(** ** The loop over the target files and [correct_guids] *)

Lemma file_step_effects (self : Corrector) (p : path) (w : World) :
  map fst (w_fs (snd (replace_guids_in_file self p w))) = map fst (w_fs w) /\
  (forall q, q <> p ->
     lookup (w_fs (snd (replace_guids_in_file self p w))) q = lookup (w_fs w) q) /\
  (forall q n, lookup (w_fs w) q = Some n -> frozen n ->
     lookup (w_fs (snd (replace_guids_in_file self p w))) q = Some n) /\
  ((fst (replace_guids_in_file self p w) = true /\
    w_writes (snd (replace_guids_in_file self p w)) = w_writes w ++ [p]) \/
   (fst (replace_guids_in_file self p w) = false /\
    w_writes (snd (replace_guids_in_file self p w)) = w_writes w)).
Proof.
  destruct (replace_guids_in_file_cases self p w)
    as [[Hr ->]|[[c [Hr [He ->]]]|[[c [Hl [Hne ->]]]|[c [Hl [Hne ->]]]]]];
    simpl; try (repeat split; auto; fail).
  split; [apply set_content_paths|].
  split; [intros q Hq; apply lookup_other_write; assumption|].
  split; [|left; auto].
  intros q n Hq Hn.
  destruct (path_eqb q p) eqn:E.
  - apply path_eqb_eq in E; subst q; rewrite Hl in Hq; injection Hq as <-.
    simpl in Hn; discriminate.
  - apply path_eqb_neq in E; rewrite lookup_other_write; assumption.
Qed.

Lemma substitute_effects (self : Corrector) (l : list path)
    (counts : nat * nat) (w : World) :
  map fst (w_fs (snd (substitute self l counts w))) = map fst (w_fs w) /\
  (forall q, ~ In q l ->
     lookup (w_fs (snd (substitute self l counts w))) q = lookup (w_fs w) q) /\
  (forall q n, lookup (w_fs w) q = Some n -> frozen n ->
     lookup (w_fs (snd (substitute self l counts w))) q = Some n) /\
  exists ws,
    w_writes (snd (substitute self l counts w)) = w_writes w ++ ws /\
    snd (fst (substitute self l counts w)) = snd counts + length ws /\
    incl ws l /\ length ws <= length l.
Proof.
  revert counts w; induction l as [|p l IH]; intros counts w.
  - simpl; repeat split; auto.
    exists []; rewrite app_nil_r; repeat split; auto; [apply incl_refl].
  - rewrite substitute_cons.
    destruct (file_step_effects self p w) as [S1 [S2 [S3 S4]]].
    destruct (IH (fst counts + 1,
                  snd counts + if fst (replace_guids_in_file self p w) then 1 else 0)
                 (snd (replace_guids_in_file self p w)))
      as [I1 [I2 [I3 [ws [I4 [I5 [I6 I7]]]]]]].
    split; [congruence|].
    split.
    { intros q Hq; rewrite I2 by (intros Hin; apply Hq; right; assumption).
      apply S2; intros E; apply Hq; left; congruence. }
    split; [intros q n Hq Hn; apply I3; auto|].
    destruct S4 as [[Hb Hw]|[Hb Hw]]; rewrite Hb in *; simpl in *.
    + exists (p :: ws); rewrite I4, Hw, <- app_assoc; simpl.
      repeat split; try lia.
      intros x [<-|Hx]; [left; reflexivity | right; apply I6; assumption].
    + exists ws; rewrite I4, Hw; repeat split; try lia.
      intros x Hx; right; apply I6; assumption.
Qed.

Lemma collect_depends_on_paths (self self' : Corrector) (w w' : World) :
  project_path self' = project_path self ->
  map fst (w_fs w') = map fst (w_fs w) ->
  collect_target_files self' w' = collect_target_files self w.
Proof.
  intros Hp Hf; unfold collect_target_files; rewrite Hp.
  apply flat_map_ext; intros ext; rewrite !rglob_paths, Hf; reflexivity.
Qed.

Lemma correct_guids_cases (self : Corrector) (w : World) :
  (fst (validate_paths self w) = false /\
   correct_guids self w = ((0, 0), self, snd (validate_paths self w))) \/
  (validate_paths self w = (true, w) /\
   guid_mappings (fst (build_guid_mappings self w)) = [] /\
   correct_guids self w =
     ((0, 0), fst (build_guid_mappings self w),
      logger ERROR NoMappings (snd (build_guid_mappings self w)))) \/
  (validate_paths self w = (true, w) /\
   guid_mappings (fst (build_guid_mappings self w)) <> [] /\
   correct_guids self w =
     (fst (substitute (fst (build_guid_mappings self w))
             (collect_target_files self w) (0, 0)
             (snd (build_guid_mappings self w))),
      fst (build_guid_mappings self w),
      snd (substitute (fst (build_guid_mappings self w))
             (collect_target_files self w) (0, 0)
             (snd (build_guid_mappings self w))))).
Proof.
  destruct (validate_paths_accepts self w) as [_ Hw].
  unfold correct_guids.
  destruct (validate_paths self w) as [[|] w1] eqn:Ev; simpl in *.
  - rewrite (Hw eq_refl) in *; right.
    destruct (build_phase_read_only self w) as [B1 [_ [_ [_ [B5 _]]]]].
    assert (Hc : collect_target_files (fst (build_guid_mappings self w))
                   (snd (build_guid_mappings self w)) =
                 collect_target_files self w)
      by (apply collect_depends_on_paths; [assumption | rewrite B1; reflexivity]).
    destruct (build_guid_mappings self w) as [self' w2]; simpl in *.
    destruct (guid_mappings self') as [|on d] eqn:Ed.
    + left; auto.
    + right; rewrite Hc; split; [reflexivity|]; split; [discriminate|].
      destruct (substitute self' (collect_target_files self w) (0, 0) w2);
        reflexivity.
  - left; auto.
Qed.

(** X18. In the result of [correct_guids], the number of files modified is
    the number of writes performed during the run; every write is to one of
    the collected target files; and the number of files modified is at most
    the number of files processed. *)
Theorem modified_count_is_write_count (self : Corrector) (w : World) :
  exists ws,
    w_writes (snd (correct_guids self w)) = w_writes w ++ ws /\
    snd (fst (fst (correct_guids self w))) = length ws /\
    incl ws (collect_target_files self w) /\
    snd (fst (fst (correct_guids self w))) <= fst (fst (fst (correct_guids self w))).
Proof.
  destruct (correct_guids_cases self w)
    as [[Hv ->]|[[Hv [Hd ->]]|[Hv [Hd ->]]]]; simpl.
  - exists []; rewrite app_nil_r; repeat split; auto; [|intros x []].
    destruct (validate_paths_reports_first_failure self w Hv)
      as [pre [pd [post [_ [_ [_ ->]]]]]]; reflexivity.
  - exists []; rewrite app_nil_r; repeat split; auto; [|intros x []].
    apply build_phase_read_only.
  - destruct (substitute_effects (fst (build_guid_mappings self w))
                (collect_target_files self w) (0, 0)
                (snd (build_guid_mappings self w)))
      as [_ [_ [_ [ws [H1 [H2 [H3 H4]]]]]]].
    exists ws; rewrite H1, H2, substitute_processed; simpl.
    destruct (build_phase_read_only self w) as [_ [-> _]].
    repeat split; auto.
Qed.

(** X19. A run of [correct_guids] creates and deletes no path; it leaves
    as they were all the entries that are not collected target files, in
    particular everything outside the project tree, and among the target
    files the directories, the files that cannot be read and the files that
    cannot be written.  Collecting the target files after the run gives the
    same list as before. *)
Theorem run_touches_only_targets (self : Corrector) (w : World) :
  map fst (w_fs (snd (correct_guids self w))) = map fst (w_fs w) /\
  (forall q, ~ In q (collect_target_files self w) ->
     lookup (w_fs (snd (correct_guids self w))) q = lookup (w_fs w) q) /\
  (forall q, under (project_path self) q = false ->
     lookup (w_fs (snd (correct_guids self w))) q = lookup (w_fs w) q) /\
  (forall q n, lookup (w_fs w) q = Some n -> frozen n ->
     lookup (w_fs (snd (correct_guids self w))) q = Some n) /\
  collect_target_files (snd (fst (correct_guids self w))) (snd (correct_guids self w))
    = collect_target_files self w.
Proof.
  assert (Hmain :
    map fst (w_fs (snd (correct_guids self w))) = map fst (w_fs w) /\
    (forall q, ~ In q (collect_target_files self w) ->
       lookup (w_fs (snd (correct_guids self w))) q = lookup (w_fs w) q) /\
    (forall q n, lookup (w_fs w) q = Some n -> frozen n ->
       lookup (w_fs (snd (correct_guids self w))) q = Some n) /\
    project_path (snd (fst (correct_guids self w))) = project_path self).
  { destruct (build_phase_read_only self w) as [B1 [_ [_ [_ [B5 _]]]]].
    destruct (correct_guids_cases self w)
      as [[Hv ->]|[[Hv [Hd ->]]|[Hv [Hd ->]]]]; simpl.
    - destruct (validate_paths_reports_first_failure self w Hv)
        as [pre [pd [post [_ [_ [_ ->]]]]]]; simpl; auto.
    - rewrite B1; auto.
    - destruct (substitute_effects (fst (build_guid_mappings self w))
                  (collect_target_files self w) (0, 0)
                  (snd (build_guid_mappings self w)))
        as [H1 [H2 [H3 _]]].
      rewrite B1 in *; auto. }
  destruct Hmain as [M1 [M2 [M3 M4]]].
  split; [assumption|]; split; [assumption|]; split; [|split; [assumption|]].
  - intros q Hq; apply M2; intros Hin.
    apply collected_files_characterised in Hin as [_ [Hu _]]; congruence.
  - apply collect_depends_on_paths; assumption.
Qed.

(** X20. [correct_guids] reports zero processed files exactly when
    validation failed or the build phase found no mapping; otherwise the
    number of processed files is the number of collected target files, that
    is the sum over the five extensions of what [count_files] counts below
    the project path. *)
Theorem processed_zero_iff_early_exit (self : Corrector) (w : World) :
  (fst (fst (fst (correct_guids self w))) = 0 <->
   fst (validate_paths self w) = false \/
   guid_mappings (fst (build_guid_mappings self w)) = []) /\
  (fst (fst (fst (correct_guids self w))) <> 0 ->
   fst (fst (fst (correct_guids self w))) =
     length (collect_target_files self w) /\
   length (collect_target_files self w) =
     list_sum (map (fun ext => count_files self (project_path self)
                                 (str "*" ++ ext) w) extensions)).
Proof.
  assert (Hsum : length (collect_target_files self w) =
                 list_sum (map (fun ext => count_files self (project_path self)
                                             (str "*" ++ ext) w) extensions))
    by (unfold collect_target_files; apply length_flat_map).
  destruct (correct_guids_cases self w)
    as [[Hv ->]|[[Hv [Hd ->]]|[Hv [Hd ->]]]]; simpl.
  - split; [tauto | congruence].
  - split; [tauto | congruence].
  - rewrite substitute_processed; simpl.
    assert (Hpos : length (collect_target_files self w) <> 0).
    { destruct (validate_paths_accepts self w) as [[Ha _] _].
      rewrite Hv in Ha; destruct (Ha eq_refl) as [_ [_ [_ Hp]]].
      destruct (rglob (w_fs w) (project_path self) meta_glob) as [|p0 l0] eqn:Er;
        [congruence|].
      assert (Hin : In p0 (collect_target_files self w)).
      { unfold collect_target_files; apply in_flat_map.
        exists (str ".meta"); split; [left; reflexivity|].
        change (str "*" ++ str ".meta") with meta_glob.
        rewrite Er; left; reflexivity. }
      destruct (collect_target_files self w); [destruct Hin | discriminate]. }
    split; [|auto].
    split; [intros E; exfalso; lia|].
    rewrite Hv; intros [E|E]; [discriminate | contradiction].
Qed.
(** ** A second build *)

Lemma dict_set_keys_present (d : table) (k v : text) :
  In k (keys d) -> keys (dict_set k v d) = keys d.
Proof.
  unfold keys; induction d as [|[k' v'] d IH]; simpl; [intros []|].
  destruct (text_eqb k' k) eqn:E; simpl; [reflexivity|].
  intros [H|H]; [apply text_eqb_neq in E; congruence|].
  rewrite IH by assumption; reflexivity.
Qed.

Lemma record_get (self : Corrector) (fs : FS) (l : list path) (d : table)
    (k : text) :
  dict_get (fold_left (record self fs) l d) k =
  last_recorded self fs k l (dict_get d k).
Proof.
  unfold last_recorded; revert d; induction l as [|m l IH]; intros d; simpl.
  - reflexivity.
  - rewrite IH; f_equal; unfold record.
    destruct (correlation self fs m) as [[o n]|]; [|reflexivity].
    destruct (text_eqb o k) eqn:E.
    + apply text_eqb_eq in E; subst o; apply dict_get_set_same.
    + apply dict_get_set_other; apply text_eqb_neq in E; congruence.
Qed.

Lemma last_recorded_cases (self : Corrector) (fs : FS) (k : text) (l : list path) :
  (forall acc, last_recorded self fs k l acc = acc) \/
  (exists n, forall acc, last_recorded self fs k l acc = Some n).
Proof.
  unfold last_recorded; induction l as [|m l IH]; simpl.
  - left; reflexivity.
  - destruct IH as [IH|[n IH]].
    + destruct (correlation self fs m) as [[o n]|]; [|left; exact IH].
      destruct (text_eqb o k); [|left; exact IH].
      right; exists n; intros acc; apply IH.
    + right; exists n; intros acc; apply IH.
Qed.

Lemma record_keys_same (self : Corrector) (fs : FS) (l : list path) (d : table) :
  (forall m o n, In m l -> correlation self fs m = Some (o, n) -> In o (keys d)) ->
  keys (fold_left (record self fs) l d) = keys d.
Proof.
  revert d; induction l as [|m l IH]; intros d H; simpl; [reflexivity|].
  assert (Hk : keys (record self fs d m) = keys d).
  { unfold record; destruct (correlation self fs m) as [[o n]|] eqn:E;
      [|reflexivity].
    apply dict_set_keys_present; apply (H m o n); [left; reflexivity | assumption]. }
  rewrite IH; [assumption|].
  intros m' o n Hin Hc; rewrite Hk; apply (H m' o n); [right|]; assumption.
Qed.

Lemma table_ext (d d' : table) :
  NoDup (keys d) -> keys d = keys d' ->
  (forall k, dict_get d k = dict_get d' k) -> d = d'.
Proof.
  revert d'; induction d as [|[k v] d IH]; intros [|[k' v'] d'] Hn Hk Hg;
    try discriminate; [reflexivity|].
  simpl in Hk; injection Hk as <- Hk.
  inversion Hn as [|? ? Hnot Hn']; subst.
  assert (Hv : v = v').
  { specialize (Hg k); simpl in Hg; rewrite text_eqb_refl in Hg; congruence. }
  subst v'; f_equal; apply IH; auto.
  intros k0; destruct (text_eqb k k0) eqn:E.
  - apply text_eqb_eq in E; subst k0.
    assert (H1 : dict_get d k = None) by (apply dict_get_None; assumption).
    assert (H2 : dict_get d' k = None)
      by (apply dict_get_None; unfold keys in *; rewrite <- Hk; assumption).
    congruence.
  - specialize (Hg k0); simpl in Hg; rewrite E in Hg; exact Hg.
Qed.

Lemma record_NoDup (self : Corrector) (fs : FS) (l : list path) (d : table) :
  NoDup (keys d) -> NoDup (keys (fold_left (record self fs) l d)).
Proof.
  revert d; induction l as [|m l IH]; intros d H; simpl; [assumption|].
  apply IH; unfold record; destruct (correlation self fs m) as [[o n]|];
    [apply dict_set_NoDup|]; assumption.
Qed.

Lemma record_twice (self : Corrector) (fs : FS) (l : list path) (d : table) :
  NoDup (keys d) ->
  fold_left (record self fs) l (fold_left (record self fs) l d) =
  fold_left (record self fs) l d.
Proof.
  intros Hn; symmetry; apply table_ext.
  - apply record_NoDup; assumption.
  - symmetry; apply record_keys_same; intros m o n Hin Hc.
    apply in_split in Hin as [l1 [l2 ->]].
    rewrite fold_left_app; simpl; apply record_keys_kept.
    unfold record at 1; rewrite Hc; apply dict_set_keys; left; reflexivity.
  - intros k; rewrite !record_get.
    destruct (last_recorded_cases self fs k l) as [H|[n H]];
      rewrite !H; reflexivity.
Qed.

(** X11. Building the mappings a second time on the same corrector, over
    an unchanged file system, gives the same table as the first time (the
    table is kept between calls; its keys being unique). *)
Theorem second_build_same_table (self : Corrector) (w : World) :
  NoDup (keys (guid_mappings self)) ->
  guid_mappings
    (fst (build_guid_mappings (fst (build_guid_mappings self w))
            (snd (build_guid_mappings self w)))) =
  guid_mappings (fst (build_guid_mappings self w)).
Proof.
  intros Hn.
  destruct (build_phase_read_only self w) as [B1 [_ [B3 [B4 _]]]].
  destruct (build_spec (fst (build_guid_mappings self w))
              (snd (build_guid_mappings self w))) as [-> _].
  rewrite B1, B3.
  destruct (build_spec self w) as [-> _].
  assert (Hr : forall d m,
             record (fst (build_guid_mappings self w)) (w_fs w) d m =
             record self (w_fs w) d m).
  { intros d m; unfold record, correlation; rewrite B4; reflexivity. }
  assert (Hf : forall l d,
             fold_left (record (fst (build_guid_mappings self w)) (w_fs w)) l d =
             fold_left (record self (w_fs w)) l d).
  { induction l as [|m l IH]; intros d; simpl; [reflexivity|].
    rewrite Hr; apply IH. }
  rewrite Hf; apply record_twice; assumption.
Qed.

Lemma second_build_same_table_witness :
  NoDup (keys (guid_mappings demo)) /\
  guid_mappings
    (fst (build_guid_mappings (fst (build_guid_mappings demo clash_world))
            (snd (build_guid_mappings demo clash_world)))) =
  guid_mappings (fst (build_guid_mappings demo clash_world)).
Proof.
  assert (Hn : NoDup (keys (guid_mappings demo))) by constructor.
  split; [exact Hn | exact (@second_build_same_table demo clash_world Hn)].
Defined.
